(** * Verification of the memberlist utility core

    Shallow embedding of [util.go] (compound framing, wire envelope,
    payload compression, node compaction and sampling) and of the
    suspicion timer, followed by the properties of the specification
    stated against it.

    Conventions of the embedding:
    - a Go [byte]/[uint8] is a [Byte.byte], its numeric value [Byte.to_N];
      [uint8], [uint16], [int32] and [uint32] conversions are written out
      with their wrap-around;
    - a Go [[]byte] that is only read through [len] and its elements is a
      [list byte]; where the code re-slices a buffer the slice keeps its
      capacity (module [Slice]);
    - a Go [int] is a [Z] (lengths and indices of lists are [nat]);
    - a run-time panic (index or slice bound out of range, division by
      zero, negative capacity) is an explicit outcome, never a silent
      default. *)

From Stdlib Require Import ZArith NArith List Lia Ascii DecimalString.
From Stdlib.Strings Require Import Byte.
From stdpp Require Import base list strings gmap.
Import ListNotations.

Open Scope nat_scope.

Abbreviation byte := Byte.byte.

#[export] Instance byte_eq_decision : EqDecision byte := Byte.byte_eq_dec.

(** ** Fixed-width conversions *)

(** [uint8(x)] of a non-negative integer. *)
Definition uint8 (x : N) : byte :=
  match Byte.of_N (x mod 256) with
  | Some c => c
  | None => Byte.x00
  end.

(** [uint16(x)] of a non-negative integer, as its value. *)
Definition uint16 (x : N) : N := (x mod 65536)%N.

(** [int32(x)]: two's complement narrowing to 32 bits. *)
Definition int32 (x : Z) : Z :=
  ((x + 2147483648) mod 4294967296 - 2147483648)%Z.

(** [uint32(x)] of a machine integer. *)
Definition uint32 (x : Z) : Z := (x mod 4294967296)%Z.

(** ** Go slices of bytes

    A slice is a window on a backing array: [vis] holds the elements below
    [len], [spare] the elements of the backing array between [len] and
    [cap].  Re-slicing [s[lo:hi]] is legal up to the capacity, indexing
    only below the length. *)
Module Slice.

Record slice := mk { vis : list byte; spare : list byte }.

Definition len (s : slice) : nat := length (vis s).

Definition cap (s : slice) : nat := length (vis s) + length (spare s).

(** A slice with no room beyond its length, e.g. a literal. *)
Definition of_list (l : list byte) : slice := mk l [].

(** [s[i]]; [None] is the index-out-of-range panic. *)
Definition index (s : slice) (i : nat) : option byte := vis s !! i.

(** [s[lo:hi]]; [None] is the slice-bounds-out-of-range panic. *)
Definition reslice (s : slice) (lo hi : nat) : option slice :=
  if decide (lo <= hi /\ hi <= cap s)
  then Some (mk (take (hi - lo) (drop lo (vis s ++ spare s)))
                (drop hi (vis s ++ spare s)))
  else None.

(** [s[lo:]], the upper bound defaulting to [len(s)]. *)
Definition from (s : slice) (lo : nat) : option slice := reslice s lo (len s).

(** [s[:hi]]. *)
Definition upto (s : slice) (hi : nat) : option slice := reslice s 0 hi.

End Slice.

Abbreviation slice := Slice.slice.

(** ** encoding/binary, big endian *)

(** [binary.BigEndian.Uint16(b)]: bounds check on [b[1]], then
    [uint16(b[1]) | uint16(b[0])<<8]. *)
Definition BigEndian_Uint16 (w : slice) : option N :=
  match Slice.index w 1, Slice.index w 0 with
  | Some b1, Some b0 => Some (N.lor (Byte.to_N b1) (N.shiftl (Byte.to_N b0) 8))
  | _, _ => None
  end.

(** [binary.Write(buf, binary.BigEndian, v)] for a [uint16] value [v]: the
    two bytes appended to the buffer, high byte first. *)
Definition BigEndian_PutUint16 (v : N) : list byte :=
  [uint8 (N.shiftr v 8); uint8 v].

(** ** Compound messages: [makeCompoundMessage], [decodeCompoundMessage] *)
Module Compound.

(** Outcome of [decodeCompoundMessage]: the three named results, or a
    panic. *)
Inductive outcome :=
| Ret (trunc : Z) (parts : list slice) (err : option string)
| Panic.

Definition err_missing : string := "missing compound length byte".

Definition err_truncated : string := "truncated len slice".

(** [makeCompoundMessage].  [compoundMsg] is the message-type constant of
    the protocol, declared with the message types of the package; it is
    a parameter. *)
Definition makeCompoundMessage (compoundMsg : byte) (msgs : list (list byte))
  : list byte :=
  [compoundMsg]
    ++ [uint8 (N.of_nat (length msgs))]
    ++ flat_map (fun m => BigEndian_PutUint16 (uint16 (N.of_nat (length m)))) msgs
    ++ concat msgs.

(** [numParts*2] as the code computes it: both operands are [uint8]. *)
Definition numParts_times2 (numParts : byte) : nat :=
  N.to_nat ((Byte.to_N numParts * 2) mod 256).

(** The loop decoding the length table: iterations [i], [i+1], ... of
    [lengths[i] = binary.BigEndian.Uint16(buf[i*2 : i*2+2])], with [todo]
    iterations to go. *)
Fixpoint decode_lengths (buf : slice) (i todo : nat) : option (list N) :=
  match todo with
  | O => Some []
  | S todo' =>
      match Slice.reslice buf (i * 2) (i * 2 + 2) with
      | None => None
      | Some w =>
          match BigEndian_Uint16 w with
          | None => None
          | Some v =>
              match decode_lengths buf (S i) todo' with
              | None => None
              | Some vs => Some (v :: vs)
              end
          end
      end
  end.

(** The loop splitting the bodies: [lengths] are the entries from index
    [idx] on, [parts] the parts appended so far. *)
Fixpoint split_parts (numParts : byte) (lengths : list N) (idx : nat)
    (buf : slice) (parts : list slice) : outcome :=
  match lengths with
  | [] => Ret 0 parts None
  | msgLen :: rest =>
      if decide (Slice.len buf < N.to_nat msgLen)
      then Ret (Z.of_N (Byte.to_N numParts) - Z.of_nat idx) parts None
      else
        match Slice.upto buf (N.to_nat msgLen),
              Slice.from buf (N.to_nat msgLen) with
        | Some part, Some buf' =>
            split_parts numParts rest (S idx) buf' (parts ++ [part])
        | _, _ => Panic
        end
  end.

(** [decodeCompoundMessage]. *)
Definition decodeCompoundMessage (buf : slice) : outcome :=
  if decide (Slice.len buf < 1) then Ret 0 [] (Some err_missing)
  else
    match Slice.index buf 0, Slice.from buf 1 with
    | Some numParts, Some buf1 =>
        if decide (Slice.len buf1 < numParts_times2 numParts)
        then Ret 0 [] (Some err_truncated)
        else
          match decode_lengths buf1 0 (N.to_nat (Byte.to_N numParts)) with
          | None => Panic
          | Some lengths =>
              match Slice.from buf1 (numParts_times2 numParts) with
              | None => Panic
              | Some buf2 => split_parts numParts lengths 0 buf2 []
              end
          end
    | _, _ => Panic
    end.

(** The bytes of the parts of a result, without their capacities. *)
Definition contents (parts : list slice) : list (list byte) :=
  map Slice.vis parts.

(** The length-table entry written for a message. *)
Definition len16 (m : list byte) : N := uint16 (N.of_nat (length m)).

(** The length table of a list of messages. *)
Definition table (msgs : list (list byte)) : list byte :=
  flat_map (fun m => BigEndian_PutUint16 (len16 m)) msgs.

(** The parts cut out of a buffer holding exactly the bodies [A]: each
    keeps what follows it as capacity. *)
Fixpoint parts_of (A : list (list byte)) (sp : list byte) : list slice :=
  match A with
  | [] => []
  | a :: A' => Slice.mk a (concat A' ++ sp) :: parts_of A' sp
  end.

(** The messages fit the wire format: each length fits 16 bits. *)
Definition fits16 (msgs : list (list byte)) : Prop :=
  Forall (fun m => (N.of_nat (length m) <= 65535)%N) msgs.

(** The frame with the last [j] message bodies cut off its tail. *)
Definition drop_tail_bodies (j : nat) (msgs : list (list byte))
    (frame : list byte) : list byte :=
  take (length frame - length (concat (drop (length msgs - j) msgs))) frame.

(** The truncation property for a list [msgs] and a number [j] of removed
    bodies: unpack reports [j] lost messages, returns the others in
    order, and no error. *)
Definition truncation_reported (msgs : list (list byte)) (j : nat) : Prop :=
  forall tag sp, exists parts,
      decodeCompoundMessage
        (Slice.mk (tl (drop_tail_bodies j msgs (makeCompoundMessage tag msgs))) sp)
      = Ret (Z.of_nat j) parts None
      /\ contents parts = take (length msgs - j) msgs.

(** The 128 one-byte messages [[7]; [7]; ...]. *)
Definition msgs128 : list (list byte) := repeat [Byte.x07] 128.

End Compound.

(** ** Outcomes of code that indexes and loops *)

(** The result of running a piece of code: a value, a run-time panic, or
    (for the loops written with a fuel argument) exhausted fuel. *)
Inductive run (A : Type) :=
| Done (a : A)
| Panicked
| OutOfFuel.

Arguments Done {A} a.
Arguments Panicked {A}.
Arguments OutOfFuel {A}.

(** ** Node lists: [moveDeadNodes] *)
Module Nodes.

(** Modelled from the spec: the node record [nodeState] and its state type
    are declared with the membership state machine, not in [util.go].
    The spec gives a node a [State] among Alive, Suspect, Dead and Left
    and a [StateChange] timestamp; the timestamp is in nanoseconds.  A
    list of [*nodeState] whose pointers are all valid is the list of the
    records pointed to. *)
Inductive nodeStateType := stateAlive | stateSuspect | stateDead | stateLeft.

Record nodeState := mkNode { State : nodeStateType; StateChange : Z }.

#[export] Instance nodeStateType_eq_dec : EqDecision nodeStateType.
Proof. solve_decision. Defined.

#[export] Instance nodeState_eq_dec : EqDecision nodeState.
Proof. solve_decision. Defined.

(** A [time.Duration]: [Time.Sub] saturates at the bounds of [int64]. *)
Definition Duration_sat (d : Z) : Z :=
  Z.max (-9223372036854775808) (Z.min 9223372036854775807 d).

(** [time.Since(t)] when the clock reads [now]. *)
Definition time_Since (now t : Z) : Z := Duration_sat (now - t).

(** The loop of [moveDeadNodes].  The clock is read once for the whole
    call ([now]).  The swap assigns [nodes[i]] first, then
    [nodes[n-numDead-1]]; [i--] followed by the loop's [i++] leaves [i]
    unchanged. *)
Fixpoint moveDeadNodes_loop (fuel : nat) (now gossipToTheDeadTime : Z)
    (nodes : list nodeState) (n i numDead : nat) : run (list nodeState * nat) :=
  match fuel with
  | O => OutOfFuel
  | S fuel' =>
      if decide (i < n - numDead) then
        match nodes !! i with
        | None => Panicked
        | Some nd =>
            if decide (State nd <> stateDead) then
              moveDeadNodes_loop fuel' now gossipToTheDeadTime nodes n (S i) numDead
            else if decide (time_Since now (StateChange nd) <= gossipToTheDeadTime)%Z then
              moveDeadNodes_loop fuel' now gossipToTheDeadTime nodes n (S i) numDead
            else
              match nodes !! (n - numDead - 1) with
              | None => Panicked
              | Some last =>
                  moveDeadNodes_loop fuel' now gossipToTheDeadTime
                    (<[n - numDead - 1 := nd]> (<[i := last]> nodes))
                    n i (S numDead)
              end
        end
      else Done (nodes, n - numDead)
  end.

(** [moveDeadNodes]: the list after the call and the index returned.  One
    unit of fuel per loop test: at most [len(nodes)] iterations and the
    final test. *)
Definition moveDeadNodes (now : Z) (nodes : list nodeState)
    (gossipToTheDeadTime : Z) : run (list nodeState * nat) :=
  moveDeadNodes_loop (S (length nodes)) now gossipToTheDeadTime nodes
    (length nodes) 0 0.

(** A node to move: dead, and dead for longer than the grace window. *)
Definition evictable (now gossipToTheDeadTime : Z) (nd : nodeState) : Prop :=
  State nd = stateDead /\
  (time_Since now (StateChange nd) > gossipToTheDeadTime)%Z.

#[export] Instance evictable_dec now g nd : Decision (evictable now g nd).
Proof. unfold evictable. apply _. Defined.

(** The property of the specification: an index [r] and a final list that
    is partitioned at [r], whose kept prefix is the kept nodes of the
    input in their input order. *)
Definition partition_in_order (now g : Z) (input : list nodeState)
    (final : list nodeState) (r : nat) : Prop :=
  Forall (evictable now g) (drop r final) /\
  Forall (fun nd => ~ evictable now g nd) (take r final) /\
  take r final = filter (fun nd => ~ evictable now g nd) input.

End Nodes.

(** ** Random sampling: [randomOffset], [kRandomNodes] *)
Module Sampling.

Section Sampling.

(** Node pointers: only their identity is used. *)
Context {ptr : Type} `{EqDecision ptr}.

(** The global random source: [rng i] is the value of the [i]-th call of
    [rand.Uint32()] (reduced to 32 bits). *)
Variable rng : nat -> Z.

(** [randomOffset(n)] with [pos] draws made so far: the offset and the new
    number of draws.  [uint32(n)] is zero for a non-zero multiple of 2^32,
    and the remainder then panics. *)
Definition randomOffset (pos : nat) (n : Z) : run (Z * nat) :=
  if decide (n = 0)%Z then Done (0%Z, pos)
  else if decide (uint32 n = 0)%Z then Panicked
  else Done ((uint32 (rng pos) mod uint32 n)%Z, S pos).

(** [filterFn != nil && filterFn(node)]. *)
Definition excluded (filterFn : option (ptr -> bool)) (node : ptr) : bool :=
  match filterFn with
  | Some f => f node
  | None => false
  end.

(** The loop of [kRandomNodes], with [todo = 3*n - i] iterations to go;
    every [continue OUTER] and the normal end of the body go on with
    [i+1]. *)
Fixpoint kRandomNodes_loop (todo : nat) (k : Z) (nodes : list ptr)
    (filterFn : option (ptr -> bool)) (pos : nat) (kNodes : list ptr)
  : run (list ptr * nat) :=
  match todo with
  | O => Done (kNodes, pos)
  | S todo' =>
      if decide (Z.of_nat (length kNodes) < k)%Z then
        match randomOffset pos (Z.of_nat (length nodes)) with
        | Done (idx, pos') =>
            match nodes !! Z.to_nat idx with
            | None => Panicked
            | Some node =>
                if excluded filterFn node
                then kRandomNodes_loop todo' k nodes filterFn pos' kNodes
                else if decide (node ∈ kNodes)
                then kRandomNodes_loop todo' k nodes filterFn pos' kNodes
                else kRandomNodes_loop todo' k nodes filterFn pos'
                       (kNodes ++ [node])
            end
        | Panicked => Panicked
        | OutOfFuel => OutOfFuel
        end
      else Done (kNodes, pos)
  end.

(** [kRandomNodes]: the nodes selected and the number of random draws
    made.  [make([]*nodeState, 0, k)] panics for a negative [k]. *)
Definition kRandomNodes (k : Z) (nodes : list ptr)
    (filterFn : option (ptr -> bool)) : run (list ptr * nat) :=
  if decide (k < 0)%Z then Panicked
  else kRandomNodes_loop (3 * length nodes) k nodes filterFn 0 [].

End Sampling.

Arguments excluded {ptr} filterFn node.

End Sampling.

(** ** The suspicion timer: [newSuspicion], [Confirm] *)
Module Suspicion.

Section Timer.

(** The underlying [time.Timer], the clock and the floating-point timeout
    formula are kept abstract: [AfterFunc d] is the timer armed for [d],
    and [adjust n k min max t] is the timer after the tail of [Confirm]
    (reading the clock, [remainingSuspicionTime], [Stop], then [Reset] or
    the direct call of the timeout function).  Neither touches the
    confirmation count or the set of confirmations. *)
Variable Timer : Type.
Variable AfterFunc : Z -> Timer.
Variable adjust : Z -> Z -> Z -> Z -> Timer -> Timer.

Record suspicion := mkSuspicion {
  n : Z;
  k : Z;
  min : Z;
  max : Z;
  timer : Timer;
  confirmations : gset string
}.

(** [newSuspicion(from, k, min, max, fn)]; [k] is narrowed to [int32]. *)
Definition newSuspicion (from : string) (k0 : Z) (min0 max0 : Z) : suspicion :=
  {| n := 0;
     k := int32 k0;
     min := min0;
     max := max0;
     timer := AfterFunc (if decide (k0 < 1)%Z then min0 else max0);
     confirmations := {[ from ]} |}.

(** [s.Confirm(from)]: the value returned and the timer afterwards. *)
Definition Confirm (from : string) (s : suspicion) : bool * suspicion :=
  if decide (n s >= k s)%Z then (false, s)
  else if decide (from ∈ confirmations s) then (false, s)
  else
    let n' := int32 (n s + 1) in
    (true,
     {| n := n';
        k := k s;
        min := min s;
        max := max s;
        timer := adjust n' (k s) (min s) (max s) (timer s);
        confirmations := {[ from ]} ∪ confirmations s |}).

(** What holds of a timer between two calls: the target is a 32-bit value,
    the count lies between 0 and the target (or 0 for a negative target),
    and the originating peer is in the set. *)
Definition suspicion_inv (from : string) (s : suspicion) : Prop :=
  (-2147483648 <= k s < 2147483648)%Z /\
  (0 <= n s <= Z.max (k s) 0)%Z /\
  from ∈ confirmations s.

(** A sequence of [Confirm] calls, one after the other. *)
Fixpoint Confirm_all (s : suspicion) (peers : list string) : suspicion :=
  match peers with
  | [] => s
  | p :: peers' => Confirm_all (snd (Confirm p s)) peers'
  end.

End Timer.

Arguments n {Timer} s.
Arguments k {Timer} s.
Arguments min {Timer} s.
Arguments max {Timer} s.
Arguments timer {Timer} s.
Arguments confirmations {Timer} s.
Arguments newSuspicion {Timer} AfterFunc from k0 min0 max0.
Arguments Confirm {Timer} adjust from s.
Arguments Confirm_all {Timer} adjust s peers.
Arguments suspicion_inv {Timer} from s.

End Suspicion.

(** ** Wire envelope and payload compression *)
Module Envelope.

(** The errors the functions can return. *)
Inductive error :=
| EncodingError
| DecodingError
| CompressionError
| DecompressionError
| UnknownAlgorithm (algo : byte).

Inductive result (T : Type) :=
| Ok (v : T)
| Err (e : error).

Arguments Ok {T} v.
Arguments Err {T} e.

(** The msgpack codec is an imported library; only its contract is used.  [codec_Encode v] is what [Encoder.Encode] appends to
    the buffer and the error it returns; [codec_Decode buf] is the value
    [Decoder.Decode] stores through its [out] pointer, or its error. *)
Class Codec (T : Type) := {
  codec_Encode : T -> list byte * option error;
  codec_Decode : list byte -> result T
}.

(** The codec's contract: what was encoded without error decodes to the
    same value. *)
Class CodecRoundTrip (T : Type) `{Codec T} : Prop :=
  codec_round_trip :
    forall (v : T) (body : list byte),
      codec_Encode v = (body, None) -> codec_Decode body = Ok v.

(** [encode(msgType, in)]: the buffer and the error. *)
Definition encode {T : Type} `{Codec T} (msgType : byte) (v : T)
  : list byte * option error :=
  let '(body, err) := codec_Encode v in (msgType :: body, err).

(** [decode(buf, out)]: the value left in [out], or the error. *)
Definition decode {T : Type} `{Codec T} (buf : list byte) : result T :=
  codec_Decode buf.

(** Modelled from the spec: the compression envelope
    [{algorithm identifier: byte, compressed bytes}], declared with the
    message types of the package, not in [util.go]. *)
Record compress := mkCompress { Algo : byte; Buf : list byte }.

(** compress/lzw with LSB order and literal width 8, an imported library:
    [lzw_Write inp] is the content of the buffer after [Write] and
    [Close], [lzw_Read buf] what [io.Copy] reads from the reader. *)
Class Lzw := {
  lzw_Write : list byte -> result (list byte);
  lzw_Read : list byte -> result (list byte)
}.

(** The contract of the compression library. *)
Class LzwRoundTrip `{Lzw} : Prop :=
  lzw_round_trip :
    forall (inp c : list byte), lzw_Write inp = Ok c -> lzw_Read c = Ok inp.

Section Payload.

Context `{Codec compress} `{Lzw}.

(** The constants [lzwAlgo] and [compressMsg] are declared with the
    message types of the package; they are parameters. *)
Variable lzwAlgo : byte.
Variable compressMsg : byte.

(** [compressPayload(inp)]: the buffer and the error; the buffer is nil
    when the compressor fails. *)
Definition compressPayload (inp : list byte) : list byte * option error :=
  match lzw_Write inp with
  | Err e => ([], Some e)
  | Ok c => encode compressMsg {| Algo := lzwAlgo; Buf := c |}
  end.

(** [decompressBuffer(c)]. *)
Definition decompressBuffer (c : compress) : result (list byte) :=
  if decide (Algo c <> lzwAlgo) then Err (UnknownAlgorithm (Algo c))
  else lzw_Read (Buf c).

(** [decompressPayload(msg)]. *)
Definition decompressPayload (msg : list byte) : result (list byte) :=
  match decode msg with
  | Err e => Err e
  | Ok c => decompressBuffer c
  end.

End Payload.

(** A small codec for the compression envelope, to run the functions on:
    the algorithm byte followed by the buffer. *)
Definition plain_codec : Codec compress := {|
  codec_Encode c := (Algo c :: Buf c, None);
  codec_Decode buf :=
    match buf with
    | [] => Err DecodingError
    | a :: rest => Ok {| Algo := a; Buf := rest |}
    end
|}.

(** A compressor that stores its input unchanged. *)
Definition stored_lzw : Lzw := {|
  lzw_Write inp := Ok inp;
  lzw_Read buf := Ok buf
|}.

End Envelope.

(** ** Further operations *)

(** *** Node lists: [shuffleNodes] *)
Module Shuffle.

(** The closure passed to [rand.Shuffle]:
    [nodes[i], nodes[j] = nodes[j], nodes[i]].  Both elements are read
    before any is written; an index out of range panics. *)
Definition swap {A : Type} (nodes : list A) (i j : nat) : run (list A) :=
  match nodes !! i, nodes !! j with
  | Some x, Some y => Done (<[j := x]> (<[i := y]> nodes))
  | _, _ => Panicked
  end.

(** [shuffleNodes(nodes)], given the calls [swap(i, j)] that
    [rand.Shuffle(len(nodes), swap)] makes, in order. *)
Fixpoint shuffleNodes {A : Type} (calls : list (nat * nat)) (nodes : list A)
  : run (list A) :=
  match calls with
  | [] => Done nodes
  | (i, j) :: calls' =>
      match swap nodes i j with
      | Done nodes' => shuffleNodes calls' nodes'
      | Panicked => Panicked
      | OutOfFuel => OutOfFuel
      end
  end.

End Shuffle.

(** *** The values returned by a sequence of [Confirm] calls *)
Module SuspicionRuns.

(** The booleans returned by the calls of [Confirm_all], in order. *)
Fixpoint Confirm_results {Timer : Type}
    (adjust : Z -> Z -> Z -> Z -> Timer -> Timer)
    (s : Suspicion.suspicion Timer) (peers : list string) : list bool :=
  match peers with
  | [] => []
  | p :: peers' =>
      fst (Suspicion.Confirm adjust p s)
        :: Confirm_results adjust (snd (Suspicion.Confirm adjust p s)) peers'
  end.

End SuspicionRuns.

(** *** Addresses: [joinHostPort], [hasPort], [ensurePort] *)
Module HostPort.

Abbreviation colon := (":"%char).
Abbreviation lbracket := ("["%char).
Abbreviation rbracket := ("]"%char).

(** A Go string is its sequence of bytes. *)
Abbreviation gostring := (list ascii).

(** The scan of [strings.LastIndex(s, sep)] for a one-byte separator:
    [i] is the index of the head of [s], [found] the last index seen. *)
Fixpoint LastIndex_from (s : gostring) (sep : ascii) (i found : Z) : Z :=
  match s with
  | [] => found
  | x :: s' =>
      LastIndex_from s' sep (i + 1) (if decide (x = sep) then i else found)
  end.

(** [strings.LastIndex(s, sep)] for a one-byte separator: the index of
    its last occurrence, or -1. *)
Definition LastIndex (s : gostring) (sep : ascii) : Z :=
  LastIndex_from s sep 0 (-1).

(** [strings.Count(s, sep)] for a one-byte separator. *)
Definition Count (s : gostring) (sep : ascii) : Z :=
  Z.of_nat (length (filter (fun x => x = sep) s)).

(** [strings.TrimLeft(s, cutset)] for a cutset of ASCII characters. *)
Fixpoint TrimLeft (s : gostring) (cutset : list ascii) : gostring :=
  match s with
  | [] => []
  | x :: s' => if decide (x ∈ cutset) then TrimLeft s' cutset else s
  end.

(** [strings.TrimRight(s, cutset)]. *)
Definition TrimRight (s : gostring) (cutset : list ascii) : gostring :=
  reverse (TrimLeft (reverse s) cutset).

(** [strings.Trim(s, cutset)]. *)
Definition Trim (s : gostring) (cutset : list ascii) : gostring :=
  TrimLeft (TrimRight s cutset) cutset.

(** [strconv.Itoa(i)]: the decimal digits, after a minus sign for a
    negative number. *)
Definition Itoa (i : Z) : gostring :=
  String.list_ascii_of_string (NilZero.string_of_int (Z.to_int i)).

(** [net.JoinHostPort(host, port)]: [host:port], or [[host]:port] when the
    host contains a colon. *)
Definition JoinHostPort (host port : gostring) : gostring :=
  if decide (colon ∈ host)
  then lbracket :: host ++ rbracket :: colon :: port
  else host ++ colon :: port.

(** [joinHostPort(host, port)]; [port] is a [uint16]. *)
Definition joinHostPort (host : gostring) (port : N) : gostring :=
  JoinHostPort host (Itoa (Z.of_N port)).

(** [hasPort(s)]. *)
Definition hasPort (s : gostring) : bool :=
  if decide (LastIndex s lbracket = 0)%Z
  then bool_decide (LastIndex s colon > LastIndex s rbracket)%Z
  else bool_decide (Count s colon = 1)%Z.

(** [ensurePort(s, port)]. *)
Definition ensurePort (s : gostring) (port : Z) : gostring :=
  if hasPort s then s
  else JoinHostPort (Trim s [lbracket; rbracket]) (Itoa port).

(** No square bracket in a string. *)
Definition no_bracket (s : gostring) : Prop :=
  (lbracket ∉ s) /\ (rbracket ∉ s).

End HostPort.

(** * Properties *)
Import Slice Compound.

(** ** Facts about the conversions and slices *)

Lemma uint8_value (x : N) : Byte.to_N (uint8 x) = (x mod 256)%N.
Proof.
  unfold uint8.
  destruct (Byte.of_N (x mod 256)) as [c|] eqn:E.
  - now apply Byte.to_of_N.
  - apply Byte.of_N_None_iff in E.
  pose proof (N.mod_upper_bound x 256). lia.
Qed.

Lemma uint8_small (x : N) : (x < 256)%N -> Byte.to_N (uint8 x) = x.
Proof. intros H. rewrite uint8_value. now apply N.mod_small. Qed.

Lemma byte_value_bound (c : byte) : (Byte.to_N c < 256)%N.
Proof. pose proof (Byte.to_N_bounded c). lia. Qed.

Lemma uint8_of_value (c : byte) : uint8 (Byte.to_N c) = c.
Proof.
  unfold uint8. rewrite N.mod_small by apply byte_value_bound.
  now rewrite Byte.of_to_N.
Qed.

Lemma int32_small (x : Z) :
  (-2147483648 <= x < 2147483648)%Z -> int32 x = x.
Proof. intros H. unfold int32. rewrite Z.mod_small; lia. Qed.

Lemma int32_range (x : Z) : (-2147483648 <= int32 x < 2147483648)%Z.
Proof.
  unfold int32.
  pose proof (Z.mod_pos_bound (x + 2147483648) 4294967296). lia.
Qed.

Lemma reslice_window (pre w post sp : list byte) :
  reslice (mk (pre ++ w ++ post) sp) (length pre) (length pre + length w)
  = Some (mk w (post ++ sp)).
Proof.
  unfold reslice, cap; simpl.
  rewrite !length_app.
  destruct (decide _) as [_|Hn]; [|lia].
  f_equal. f_equal.
  - replace (length pre + length w - length pre) with (length w) by lia.
    rewrite <- !app_assoc, drop_app_length.
    now rewrite take_app_length.
  - rewrite <- !app_assoc.
    rewrite drop_app_add', drop_app_length; [reflexivity|reflexivity].
Qed.

Lemma from_app (a c sp : list byte) :
  from (mk (a ++ c) sp) (length a) = Some (mk c sp).
Proof.
  unfold from, len; simpl.
  pose proof (reslice_window a c [] sp) as H.
  rewrite app_nil_r in H; simpl in H.
  now rewrite length_app.
Qed.

Lemma upto_app (a c sp : list byte) :
  upto (mk (a ++ c) sp) (length a) = Some (mk a (c ++ sp)).
Proof.
  unfold upto.
  exact (reslice_window [] a c sp).
Qed.

Lemma Uint16_PutUint16 (v : N) (sp : list byte) :
  (v < 65536)%N ->
  BigEndian_Uint16 (Slice.mk (BigEndian_PutUint16 v) sp) = Some v.
Proof.
  intros Hv. unfold BigEndian_Uint16, BigEndian_PutUint16, Slice.index; simpl.
  f_equal. rewrite !uint8_value.
  rewrite N.shiftr_div_pow2, N.shiftl_mul_pow2.
  change (2 ^ 8)%N with 256%N.
  rewrite (N.mod_small (v / 256) 256)
  by (apply N.Div0.div_lt_upper_bound; lia).
  rewrite N.lor_comm.
  change 256%N with (2 ^ 8)%N.
  rewrite <- N.shiftl_mul_pow2, <- N.shiftr_div_pow2.
  rewrite <- N.ldiff_ones_r, <- N.land_ones.
  apply N.lor_ldiff_and.
Qed.

(** ** The compound frame: well-formed and truncated frames *)

Lemma contents_parts_of A sp : contents (parts_of A sp) = A.
Proof. induction A as [|a A IH]; simpl; [reflexivity|]. now rewrite IH. Qed.

Lemma len16_small (m : list byte) :
  (N.of_nat (length m) <= 65535)%N -> N.to_nat (len16 m) = length m.
Proof.
  intros H. unfold len16, uint16. rewrite N.mod_small by lia. lia.
Qed.

Lemma len16_bound (m : list byte) : (len16 m < 65536)%N.
Proof. unfold len16, uint16. apply N.mod_upper_bound. lia. Qed.

Lemma length_table msgs : length (table msgs) = 2 * length msgs.
Proof.
  unfold table. induction msgs as [|m msgs IH]; simpl; [reflexivity|].
  rewrite IH. lia.
Qed.

Lemma table_app A B : table (A ++ B) = table A ++ table B.
Proof. unfold table. apply flat_map_app. Qed.

Lemma makeCompoundMessage_layout tag msgs :
  makeCompoundMessage tag msgs
  = tag :: uint8 (N.of_nat (length msgs)) :: table msgs ++ concat msgs.
Proof. reflexivity. Qed.

(** Decoding the length table of a frame gives the entries back, wherever
    the table sits in the buffer, as long as the walk starts on it. *)
Lemma decode_lengths_table (msgs : list (list byte)) :
  forall (pre post sp : list byte) (i : nat),
    length pre = i * 2 ->
    decode_lengths (mk (pre ++ table msgs ++ post) sp) i (length msgs)
    = Some (map len16 msgs).
Proof.
  induction msgs as [|m msgs IH]; intros pre post sp i Hpre; simpl.
  - reflexivity.
  - change (uint8 (N.shiftr (len16 m) 8) :: uint8 (len16 m) :: table msgs ++ post)
      with (BigEndian_PutUint16 (len16 m) ++ table msgs ++ post).
    replace (i * 2 + 2)
      with (length pre + length (BigEndian_PutUint16 (len16 m)))
      by (simpl; lia).
    rewrite <- Hpre, reslice_window.
    rewrite Uint16_PutUint16 by apply len16_bound.
    rewrite (app_assoc pre).
    rewrite (IH (pre ++ BigEndian_PutUint16 (len16 m)) post sp (S i)).
    + reflexivity.
    + rewrite length_app; simpl; lia.
Qed.

(** Splitting a buffer that holds the bodies of [A] and nothing of the
    messages [B] that follow in the table: the loop extracts [A] and
    arrives at the entries of [B] with an empty buffer. *)
Lemma split_parts_bodies (numParts : byte) (A : list (list byte)) :
  forall (B : list (list byte)) (idx : nat) (sp : list byte) (parts : list slice),
    fits16 A ->
    split_parts numParts (map len16 (A ++ B)) idx (mk (concat A) sp) parts
    = split_parts numParts (map len16 B) (idx + length A) (mk [] sp)
        (parts ++ parts_of A sp).
Proof.
  induction A as [|a A IH]; intros B idx sp parts HA; simpl.
  - rewrite app_nil_r. f_equal. lia.
  - inversion HA as [|? ? Ha HA']; subst.
    rewrite len16_small by assumption.
    unfold len at 1; simpl.
    destruct (decide _) as [Hlt|_]; [rewrite length_app in Hlt; lia|].
    rewrite upto_app, from_app.
    rewrite IH by assumption.
    rewrite <- app_assoc; simpl. f_equal. lia.
Qed.

(** What the loop does once the bodies are used up. *)
Lemma split_parts_exhausted (numParts : byte) (B : list (list byte))
    (idx : nat) (sp : list byte) (parts : list slice) :
  match B with
  | [] => True
  | m :: _ => m <> [] /\ (N.of_nat (length m) <= 65535)%N
  end ->
  split_parts numParts (map len16 B) idx (mk [] sp) parts
  = Ret (match B with
         | [] => 0
         | _ :: _ => Z.of_N (Byte.to_N numParts) - Z.of_nat idx
         end) parts None.
Proof.
  destruct B as [|m B]; simpl; [reflexivity|].
  intros [Hne Hm]. rewrite len16_small by assumption.
  unfold len; simpl.
  destruct (decide _) as [_|Hn]; [reflexivity|].
  destruct m; [congruence|simpl in Hn; lia].
Qed.

(** [decodeCompoundMessage] on a non-empty buffer, past the count byte. *)
Lemma decode_cons (c : byte) (rest sp : list byte) :
  decodeCompoundMessage (mk (c :: rest) sp)
  = if decide (length rest < numParts_times2 c)
    then Ret 0 [] (Some err_truncated)
    else
      match decode_lengths (mk rest sp) 0 (N.to_nat (Byte.to_N c)) with
      | None => Panic
      | Some lengths =>
          match from (mk rest sp) (numParts_times2 c) with
          | None => Panic
          | Some buf2 => split_parts c lengths 0 buf2 []
          end
      end.
Proof.
  unfold decodeCompoundMessage.
  unfold len at 1; simpl length.
  destruct (decide (S (length rest) < 1)) as [?|_]; [lia|].
  change (index (mk (c :: rest) sp) 0) with (Some c).
  pose proof (from_app [c] rest sp) as Hf.
  change ([c] ++ rest) with (c :: rest) in Hf.
  change (length [c]) with 1 in Hf.
  rewrite Hf. reflexivity.
Qed.

(** A frame (after its tag byte) that carries the whole header for
    [A ++ B] but only the bodies of [A]. *)
Lemma decode_frame (A B : list (list byte)) (sp : list byte) :
  length (A ++ B) <= 127 ->
  fits16 A ->
  match B with
  | [] => True
  | m :: _ => m <> [] /\ (N.of_nat (length m) <= 65535)%N
  end ->
  decodeCompoundMessage
    (mk (uint8 (N.of_nat (length (A ++ B))) :: table (A ++ B) ++ concat A) sp)
  = Ret (Z.of_nat (length B)) (parts_of A sp) None.
Proof.
  intros Hn HA HB.
  set (L := A ++ B) in *.
  set (cnt := uint8 (N.of_nat (length L))).
  assert (Hcnt : Byte.to_N cnt = N.of_nat (length L))
    by (apply uint8_small; lia).
  assert (H2 : numParts_times2 cnt = length (table L)).
  { unfold numParts_times2. rewrite Hcnt, length_table.
    rewrite N.mod_small by lia. lia. }
  unfold decodeCompoundMessage.
  unfold len at 1; simpl length.
  destruct (decide _) as [Hlt|_]; [lia|].
  unfold index; simpl lookup.
  change (cnt :: table L ++ concat A) with ([cnt] ++ (table L ++ concat A)).
  change 1 with (length [cnt]) at 1.
  rewrite from_app.
  unfold len at 1; simpl vis.
  destruct (decide _) as [Hlt|_]; [rewrite length_app in Hlt; lia|].
  rewrite Hcnt, Nat2N.id.
  change (table L ++ concat A) with ([] ++ table L ++ concat A) at 1.
  rewrite (decode_lengths_table L [] (concat A) sp 0 eq_refl).
  simpl app.
  rewrite H2, from_app.
  subst L. rewrite split_parts_bodies by assumption.
  rewrite split_parts_exhausted by assumption.
  simpl. f_equal.
  destruct B as [|m B]; [reflexivity|].
  rewrite Hcnt, length_app. lia.
Qed.

(** ** Claims on the compound frame *)

Lemma take_cut_tail {X} (x y : list X) :
  take (length (x ++ y) - length y) (x ++ y) = x.
Proof.
  rewrite length_app.
  replace (length x + length y - length y) with (length x) by lia.
  apply take_app_length.
Qed.

(** The body loop never reports an error. *)
Lemma split_parts_no_error numParts lengths :
  forall idx buf parts trunc ps e,
    split_parts numParts lengths idx buf parts = Ret trunc ps e -> e = None.
Proof.
  induction lengths as [|l lengths IH]; intros idx buf parts trunc ps e; simpl.
  - congruence.
  - destruct (decide _); [congruence|].
    destruct (upto buf (N.to_nat l)); [|discriminate].
    destruct (from buf (N.to_nat l)); [|discriminate].
    apply IH.
Qed.

(** The truncated-table error is returned exactly when the bytes after
    the count are fewer than [numParts*2] as computed in [uint8]. *)
Lemma decode_truncated_iff (c : byte) (rest sp : list byte) :
  decodeCompoundMessage (mk (c :: rest) sp) = Ret 0 [] (Some err_truncated)
  <-> length rest < numParts_times2 c.
Proof.
  rewrite decode_cons.
  destruct (decide _) as [Hlt|Hge]; [tauto|].
  split; [|lia].
  destruct (decode_lengths _ _ _) as [ls|]; [|discriminate].
  destruct (from _ _) as [b2|]; [|discriminate].
  intros Hs. apply split_parts_no_error in Hs. discriminate.
Qed.

(** [numParts*2] wraps from 128 on. *)
Lemma numParts_times2_value (c : byte) :
  numParts_times2 c
  = if decide (Byte.to_N c <= 127)%N
    then 2 * N.to_nat (Byte.to_N c)
    else 2 * N.to_nat (Byte.to_N c) - 256.
Proof.
  unfold numParts_times2. pose proof (byte_value_bound c) as Hc.
  destruct (decide _) as [Hs|Hb].
  - rewrite N.mod_small by lia. lia.
  - replace (Byte.to_N c * 2)%N with (Byte.to_N c * 2 - 256 + 1 * 256)%N by lia.
    rewrite N.Div0.mod_add, N.mod_small by lia. lia.
Qed.

(** The header checks for counts below 128, where [numParts*2] does not
    wrap: an empty buffer and a short length table are both reported. *)
Lemma decode_header_errors (buf : slice) :
  (vis buf = [] ->
   decodeCompoundMessage buf = Ret 0 [] (Some err_missing)) /\
  (forall c rest,
      vis buf = c :: rest ->
      (Byte.to_N c <= 127)%N ->
      length rest < 2 * N.to_nat (Byte.to_N c) ->
      decodeCompoundMessage buf = Ret 0 [] (Some err_truncated)).
Proof.
  destruct buf as [v sp]; simpl; split.
  - intros ->. reflexivity.
  - intros c rest -> Hc Hlen.
    apply decode_truncated_iff. rewrite numParts_times2_value.
    destruct (decide _) as [_|Hn]; [exact Hlen|contradiction].
Qed.

(** From 128 on, a table short by up to 256 bytes passes the check. *)
Lemma decode_short_table_unreported (c : byte) (rest sp : list byte) :
  (128 <= Byte.to_N c)%N ->
  2 * N.to_nat (Byte.to_N c) - 256 <= length rest < 2 * N.to_nat (Byte.to_N c) ->
  decodeCompoundMessage (mk (c :: rest) sp) <> Ret 0 [] (Some err_truncated).
Proof.
  intros Hc Hlen Herr. apply decode_truncated_iff in Herr.
  rewrite numParts_times2_value in Herr.
  destruct (decide _) as [Hs|_]; lia.
Qed.

(** C1: a buffer holding only the count byte 128 has fewer than
    [count*2 = 256] bytes after the count, yet is not reported as a
    truncated length table: [numParts*2] wraps to 0 in [uint8], the check
    passes, and the first table read [buf[0:2]] is out of range.  The call
    panics when the buffer has no spare capacity, and whatever the
    capacity the result is never the truncated-table error. *)
Theorem decode_count_128_not_reported :
  length (@nil byte) < 2 * N.to_nat (Byte.to_N Byte.x80) /\
  decodeCompoundMessage (of_list [Byte.x80]) = Panic /\
  forall sp, decodeCompoundMessage (mk [Byte.x80] sp)
             <> Ret 0 [] (Some err_truncated).
Proof.
  split; [vm_compute; lia|].
  split; [reflexivity|].
  intros sp Herr. apply decode_truncated_iff in Herr.
  vm_compute in Herr. lia.
Qed.

(** Round trip for up to 127 messages: unpacking a packed frame gives
    the messages back, with no truncation and no error, whatever lies
    beyond the frame in the buffer's capacity. *)
Lemma decode_make_roundtrip_small (tag : byte) (msgs : list (list byte))
    (sp : list byte) :
  length msgs <= 127 ->
  fits16 msgs ->
  exists parts,
    decodeCompoundMessage (mk (tl (makeCompoundMessage tag msgs)) sp)
    = Ret 0 parts None /\ contents parts = msgs.
Proof.
  intros Hn Hfit.
  exists (parts_of msgs sp). split; [|apply contents_parts_of].
  rewrite makeCompoundMessage_layout; simpl tl.
  pose proof (decode_frame msgs [] sp) as H.
  rewrite app_nil_r in H. apply H; auto.
Qed.

(** C2: for 128 one-byte messages the round trip fails.  [numParts*2]
    wraps to 0, so the bodies are cut out of the length table itself:
    the 128 parts returned are the first 128 bytes of the table
    (0, 1, 0, 1, ...), not the messages. *)
Theorem decode_make_128_messages (tag : byte) :
  length msgs128 <= 255 /\ fits16 msgs128 /\
  exists parts,
    decodeCompoundMessage (of_list (tl (makeCompoundMessage tag msgs128)))
    = Ret 0 parts None /\
    contents parts = concat (repeat [[Byte.x00]; [Byte.x01]] 64) /\
    contents parts <> msgs128.
Proof.
  split; [vm_compute; lia|].
  split.
  { apply Forall_forall. intros m Hm.
    apply list_elem_of_In, repeat_spec in Hm. subst.
    vm_compute. discriminate. }
  rewrite makeCompoundMessage_layout; simpl tl.
  eexists. split; [vm_compute; reflexivity|].
  split; [vm_compute; reflexivity|].
  vm_compute. discriminate.
Qed.

(** C3, as stated, fails when the first removed body is empty: removing
    the empty last body of [[1]; []] leaves the frame whole, and unpack
    returns both messages with truncation count 0. *)
Lemma truncation_empty_body_counterexample :
  length [[Byte.x01]; []] <= 255 /\ fits16 [[Byte.x01]; []] /\
  1 <= 1 <= length [[Byte.x01]; []] /\
  decodeCompoundMessage
    (of_list (tl (drop_tail_bodies 1 [[Byte.x01]; []]
                    (makeCompoundMessage Byte.x07 [[Byte.x01]; []]))))
  = Ret 0 [mk [Byte.x01] []; mk [] []] None /\
  ~ truncation_reported [[Byte.x01]; []] 1.
Proof.
  split; [simpl; lia|].
  split; [repeat constructor; vm_compute; discriminate|].
  split; [simpl; lia|].
  split; [vm_compute; reflexivity|].
  intros H. destruct (H Byte.x07 []) as [parts [Hd _]].
  vm_compute in Hd. discriminate.
Qed.

(** C3 (amended): for at most 127 messages of at most 65535 bytes, if
    the bodies of the last [j >= 1] messages are cut off the frame and
    the first of them is not empty, unpack returns truncation count [j],
    the first [len - j] messages in order, and no error. *)
Theorem truncation_reported_nonempty (msgs : list (list byte)) (j : nat) :
  length msgs <= 127 ->
  fits16 msgs ->
  1 <= j <= length msgs ->
  (exists m, msgs !! (length msgs - j) = Some m /\ m <> []) ->
  truncation_reported msgs j.
Proof.
  intros Hn Hfit Hj [m [Hm Hne]] tag sp.
  set (A := take (length msgs - j) msgs).
  set (B := drop (length msgs - j) msgs).
  assert (HAB : msgs = A ++ B) by (symmetry; apply take_drop).
  assert (HlenB : length B = j) by (subst B; rewrite length_drop; lia).
  exists (parts_of A sp). split; [|apply contents_parts_of].
  unfold drop_tail_bodies. fold B.
  rewrite makeCompoundMessage_layout.
  assert (Hc : tag :: uint8 (N.of_nat (length msgs))
                   :: table msgs ++ concat msgs
               = (tag :: uint8 (N.of_nat (length msgs))
                      :: table msgs ++ concat A) ++ concat B).
  { simpl. rewrite <- app_assoc, <- concat_app. now rewrite <- HAB. }
  rewrite Hc, take_cut_tail; simpl tl.
  rewrite <- HlenB. rewrite HAB at 1 2.
  apply decode_frame.
  - rewrite <- HAB. exact Hn.
  - subst A. apply Forall_take. exact Hfit.
  - assert (HB : B !! 0 = Some m).
    { subst B. rewrite lookup_drop. now rewrite Nat.add_0_r. }
    destruct B as [|m' B']; [discriminate|].
    simpl in HB. injection HB as ->. split; [exact Hne|].
    unfold fits16 in Hfit. rewrite Forall_forall in Hfit.
    apply Hfit. rewrite HAB.
    apply elem_of_app. right. left.
Qed.

(** The amended truncation property at a concrete frame. *)
Lemma truncation_reported_nonempty_witness :
  truncation_reported [[Byte.x01; Byte.x02]; [Byte.x03]; [Byte.x04]] 2.
Proof.
  apply (truncation_reported_nonempty
           [[Byte.x01; Byte.x02]; [Byte.x03]; [Byte.x04]] 2).
  - simpl; lia.
  - repeat constructor; vm_compute; discriminate.
  - simpl; lia.
  - exists [Byte.x03]. split; [reflexivity|discriminate].
Defined.

(** ** Packing lists outside the documented bounds *)

Lemma table_lookup (msgs : list (list byte)) :
  forall i m,
    msgs !! i = Some m ->
    table msgs !! (2 * i) = Some (uint8 (N.shiftr (len16 m) 8)) /\
    table msgs !! (2 * i + 1) = Some (uint8 (len16 m)).
Proof.
  induction msgs as [|m0 msgs IH]; intros i m Hi; [discriminate|].
  destruct i as [|i]; simpl in Hi.
  - injection Hi as ->. split; reflexivity.
  - destruct (IH i m Hi) as [H1 H2].
    replace (2 * S i) with (S (S (2 * i))) by lia.
    split; simpl; [exact H1|exact H2].
Qed.

Lemma hi_lo_value (v : N) :
  (v < 65536)%N ->
  (Byte.to_N (uint8 (N.shiftr v 8)) * 256 + Byte.to_N (uint8 v) = v)%N.
Proof.
  intros Hv. rewrite !uint8_value, N.shiftr_div_pow2.
  change (2 ^ 8)%N with 256%N.
  rewrite (N.mod_small (v / 256) 256)
    by (apply N.Div0.div_lt_upper_bound; lia).
  pose proof (N.div_mod v 256). lia.
Qed.

(** One message of exactly 65536 bytes: its length entry is 0, and the
    frame unpacks to one empty part (the body stays behind as the
    part's capacity). *)
Lemma decode_oversized_message (tag : byte) (m : list byte) :
  N.of_nat (length m) = 65536%N ->
  decodeCompoundMessage (of_list (tl (makeCompoundMessage tag [m])))
  = Ret 0 [mk [] m] None.
Proof.
  intros Hm.
  assert (H0 : len16 m = 0%N) by (unfold len16; rewrite Hm; reflexivity).
  assert (Hbuf : tl (makeCompoundMessage tag [m])
                 = Byte.x01 :: [Byte.x00; Byte.x00] ++ m).
  { rewrite makeCompoundMessage_layout. unfold table. simpl.
    rewrite H0, !app_nil_r. reflexivity. }
  rewrite Hbuf. unfold of_list. rewrite decode_cons.
  change (numParts_times2 Byte.x01) with (length [Byte.x00; Byte.x00]).
  destruct (decide _) as [Hlt|_]; [simpl in Hlt; lia|].
  rewrite (from_app [Byte.x00; Byte.x00] m []).
  change (N.to_nat (Byte.to_N Byte.x01)) with 1.
  unfold decode_lengths.
  pose proof (reslice_window [] [Byte.x00; Byte.x00] m []) as Hw.
  change (reslice (mk ([Byte.x00; Byte.x00] ++ m) []) (0 * 2) (0 * 2 + 2)
          = Some (mk [Byte.x00; Byte.x00] (m ++ []))) in Hw.
  rewrite Hw.
  change (BigEndian_Uint16 (mk [Byte.x00; Byte.x00] (m ++ [])))
    with (Some 0%N).
  unfold split_parts.
  change (N.to_nat 0) with (length (@nil byte)).
  destruct (decide _) as [Hlt|_]; [simpl in Hlt; lia|].
  pose proof (upto_app [] m []) as Hu.
  pose proof (from_app [] m []) as Hf.
  change ([] ++ m) with m in Hu, Hf.
  rewrite Hu, Hf, app_nil_r. reflexivity.
Qed.

(** C10: [makeCompoundMessage] is a total function with no error result.
    For every list the frame is the tag, a count byte worth
    [len(msgs) mod 256], one big-endian 16-bit entry worth
    [len(m) mod 65536] per message, then all the bodies.  Lists beyond
    the bounds are wrapped, not rejected, and the frame no longer
    describes the list: the frame of 256 empty messages has count byte 0
    and unpacks to no message at all, and the frame of one message of
    65536 bytes has length entry 0 and unpacks to one empty part. *)
Theorem makeCompoundMessage_wraps (tag : byte) (msgs : list (list byte)) :
  makeCompoundMessage tag msgs
  = tag :: uint8 (N.of_nat (length msgs))
        :: flat_map (fun m => BigEndian_PutUint16 (len16 m)) msgs
           ++ concat msgs /\
  Byte.to_N (uint8 (N.of_nat (length msgs)))
  = (N.of_nat (length msgs) mod 256)%N /\
  (forall m : list byte,
      exists hi lo,
        BigEndian_PutUint16 (len16 m) = [hi; lo] /\
        (Byte.to_N hi * 256 + Byte.to_N lo
         = N.of_nat (length m) mod 65536)%N) /\
  decodeCompoundMessage
    (of_list (tl (makeCompoundMessage tag (repeat [] 256))))
  = Ret 0 [] None /\
  decodeCompoundMessage
    (of_list (tl (makeCompoundMessage tag [repeat Byte.x07 (N.to_nat 65536)])))
  = Ret 0 [mk [] (repeat Byte.x07 (N.to_nat 65536))] None.
Proof.
  split; [reflexivity|].
  split; [apply uint8_value|].
  split.
  - intros m. eexists _, _. split; [reflexivity|].
    apply hi_lo_value, len16_bound.
  - split; [vm_compute; reflexivity|].
    apply decode_oversized_message.
    rewrite repeat_length. apply N2Nat.id.
Qed.

(** ** The suspicion timer *)
Section SuspicionFacts.

Variable Timer : Type.
Variable AfterFunc : Z -> Timer.
Variable adjust : Z -> Z -> Z -> Z -> Timer -> Timer.

Local Abbreviation Confirm := (Suspicion.Confirm adjust).
Local Abbreviation Confirm_all := (Suspicion.Confirm_all adjust).
Local Abbreviation newSuspicion := (Suspicion.newSuspicion AfterFunc).
Local Abbreviation state := (Suspicion.suspicion Timer).

Local Abbreviation suspicion_inv := (@Suspicion.suspicion_inv Timer).

Lemma Confirm_reject (p : string) (s : state) :
  (Suspicion.n s >= Suspicion.k s)%Z \/ p ∈ Suspicion.confirmations s ->
  Confirm p s = (false, s).
Proof.
  intros Hrej. unfold Suspicion.Confirm.
  destruct (decide _) as [|Hn]; [reflexivity|].
  destruct (decide _) as [|Hp]; [reflexivity|].
  destruct Hrej; contradiction.
Qed.

Lemma Confirm_accept (p : string) (s : state) :
  (-2147483648 <= Suspicion.k s < 2147483648)%Z ->
  (0 <= Suspicion.n s < Suspicion.k s)%Z ->
  p ∉ Suspicion.confirmations s ->
  Confirm p s
  = (true,
     Suspicion.mkSuspicion Timer (Suspicion.n s + 1) (Suspicion.k s)
       (Suspicion.min s) (Suspicion.max s)
       (adjust (Suspicion.n s + 1) (Suspicion.k s) (Suspicion.min s)
          (Suspicion.max s) (Suspicion.timer s))
       ({[ p ]} ∪ Suspicion.confirmations s)).
Proof.
  intros Hk Hn Hp. unfold Suspicion.Confirm.
  destruct (decide _) as [Hge|_]; [lia|].
  destruct (decide _) as [Hin|_]; [contradiction|].
  rewrite int32_small by lia. reflexivity.
Qed.

Lemma Confirm_preserves_inv (from p : string) (s : state) :
  suspicion_inv from s -> suspicion_inv from (snd (Confirm p s)).
Proof.
  intros (Hk & Hn & Hfrom).
  destruct (decide ((Suspicion.n s >= Suspicion.k s)%Z
                    \/ p ∈ Suspicion.confirmations s)) as [Hrej|Hacc].
  - rewrite Confirm_reject by assumption. simpl. repeat split; assumption || lia.
  - assert (Hlt : (Suspicion.n s < Suspicion.k s)%Z) by lia.
    assert (Hp : p ∉ Suspicion.confirmations s) by tauto.
    rewrite Confirm_accept by (assumption || lia).
    unfold suspicion_inv; simpl.
    split; [lia|]. split; [lia|]. set_solver.
Qed.

Lemma newSuspicion_inv (from : string) (k0 min0 max0 : Z) :
  suspicion_inv from (newSuspicion from k0 min0 max0).
Proof.
  unfold suspicion_inv; simpl.
  pose proof (int32_range k0). repeat split; try lia. set_solver.
Qed.

Lemma Confirm_k (p : string) (s : state) :
  Suspicion.k (snd (Confirm p s)) = Suspicion.k s.
Proof.
  unfold Suspicion.Confirm.
  destruct (decide _); [reflexivity|].
  destruct (decide _); reflexivity.
Qed.

Lemma Confirm_all_inv (from : string) (peers : list string) :
  forall s : state,
    suspicion_inv from s ->
    suspicion_inv from (Confirm_all s peers) /\
    Suspicion.k (Confirm_all s peers) = Suspicion.k s.
Proof.
  induction peers as [|p peers IH]; intros s Hs; simpl.
  - split; [assumption|reflexivity].
  - destruct (IH _ (Confirm_preserves_inv from p s Hs)) as [Hinv Hk].
    split; [assumption|]. rewrite Hk. apply Confirm_k.
Qed.


End SuspicionFacts.

(** ** Compaction of dead nodes *)
Section NodesFacts.

Import Nodes.

Lemma swap_head_perm {A} (l : list A) :
  forall j x y, l !! j = Some y -> y :: <[j:=x]> l ≡ₚ x :: l.
Proof.
  induction l as [|a l IH]; intros j x y Hj; [discriminate|].
  destruct j as [|j]; simpl in *.
  - injection Hj as ->. apply perm_swap.
  - rewrite perm_swap. rewrite (IH j x y Hj). apply perm_swap.
Qed.

(** Exchanging two elements of a list leaves its content unchanged. *)
Lemma swap_perm {A} (l : list A) :
  forall i j x y,
    l !! i = Some x -> l !! j = Some y ->
    <[j:=x]> (<[i:=y]> l) ≡ₚ l.
Proof.
  induction l as [|a l IH]; intros i j x y Hi Hj; [discriminate|].
  destruct i as [|i], j as [|j]; simpl in *.
  - injection Hi as ->. reflexivity.
  - injection Hi as ->. apply swap_head_perm. exact Hj.
  - injection Hj as ->. apply swap_head_perm. exact Hi.
  - f_equiv. apply IH; assumption.
Qed.

Lemma drop_insert_at {A} (l : list A) (j : nat) (x : A) :
  j < length l -> drop j (<[j:=x]> l) = x :: drop (S j) l.
Proof.
  revert j. induction l as [|a l IH]; intros j Hj; simpl in *; [lia|].
  destruct j as [|j]; simpl; [now rewrite drop_0|].
  apply IH. lia.
Qed.

Lemma filter_all {A} (P : A -> Prop) `{forall x, Decision (P x)} (l : list A) :
  Forall P l -> filter P l = l.
Proof.
  induction 1 as [|x l Hx _ IH]; [reflexivity|].
  rewrite filter_cons_True by assumption. now rewrite IH.
Qed.

Lemma filter_none {A} (P : A -> Prop) `{forall x, Decision (P x)} (l : list A) :
  Forall (fun x => ~ P x) l -> filter P l = [].
Proof.
  induction 1 as [|x l Hx _ IH]; [reflexivity|].
  rewrite filter_cons_False by assumption. exact IH.
Qed.

Variables now g : Z.

Lemma not_dead_not_evictable (nd : nodeState) :
  State nd <> stateDead -> ~ evictable now g nd.
Proof. intros H [H1 _]. contradiction. Qed.

Lemma in_grace_not_evictable (nd : nodeState) :
  (time_Since now (StateChange nd) <= g)%Z -> ~ evictable now g nd.
Proof. intros H [_ H2]. lia. Qed.

(** The loop invariant: the nodes below [i] are kept nodes, the nodes from
    [n - numDead] on are evictable, and the list is a rearrangement of the
    input.  With fuel for the remaining iterations the loop ends in a
    partitioned rearrangement. *)
Lemma moveDeadNodes_loop_partitions (input : list nodeState) :
  forall (fuel : nat) (nodes : list nodeState) (i numDead : nat),
    nodes ≡ₚ input ->
    i + numDead <= length nodes ->
    length nodes - numDead - i < fuel ->
    Forall (fun nd => ~ evictable now g nd) (take i nodes) ->
    Forall (evictable now g) (drop (length nodes - numDead) nodes) ->
    exists final r,
      moveDeadNodes_loop fuel now g nodes (length nodes) i numDead
      = Done (final, r) /\
      final ≡ₚ input /\
      r <= length final /\
      Forall (evictable now g) (drop r final) /\
      Forall (fun nd => ~ evictable now g nd) (take r final).
Proof.
  induction fuel as [|fuel IH]; intros nodes i numDead Hperm Hle Hfuel Hkept Hdead;
    [lia|].
  simpl. destruct (decide (i < length nodes - numDead)) as [Hlt|Hge].
  - destruct (lookup_lt_is_Some_2 nodes i ltac:(lia)) as [nd Hnd].
    rewrite Hnd.
    assert (Hstep : ~ evictable now g nd ->
      exists final r,
        moveDeadNodes_loop fuel now g nodes (length nodes) (S i) numDead
        = Done (final, r) /\ final ≡ₚ input /\ r <= length final /\
        Forall (evictable now g) (drop r final) /\
        Forall (fun nd => ~ evictable now g nd) (take r final)).
    { intros Hne. apply IH; try assumption; try lia.
      rewrite (take_S_r _ _ _ Hnd). apply Forall_app. split; [assumption|].
      constructor; [assumption|constructor]. }
    destruct (decide (State nd <> stateDead)) as [Hs|Hs].
    { apply Hstep, not_dead_not_evictable, Hs. }
    destruct (decide (time_Since now (StateChange nd) <= g)%Z) as [Ht|Ht].
    { apply Hstep, in_grace_not_evictable, Ht. }
    assert (Hev : evictable now g nd).
    { split; [|lia]. destruct (decide (State nd = stateDead)); tauto. }
    set (e := length nodes - numDead - 1) in *.
    destruct (lookup_lt_is_Some_2 nodes e ltac:(subst e; lia)) as [last Hlast].
    rewrite Hlast.
    set (nodes' := <[e := nd]> (<[i := last]> nodes)).
    assert (Hlen : length nodes' = length nodes)
      by (subst nodes'; now rewrite !length_insert).
    rewrite <- Hlen.
    apply IH.
    + subst nodes'. rewrite (swap_perm nodes i e nd last Hnd Hlast). exact Hperm.
    + lia.
    + lia.
    + subst nodes'. rewrite !take_insert_ge by (subst e; lia). exact Hkept.
    + subst nodes'. rewrite Hlen.
      replace (length nodes - S numDead) with e by (subst e; lia).
      rewrite drop_insert_at by (rewrite length_insert; subst e; lia).
      constructor; [exact Hev|].
      rewrite drop_insert_lt by (subst e; lia).
      replace (S e) with (length nodes - numDead) by (subst e; lia).
      exact Hdead.
  - exists nodes, (length nodes - numDead).
    split; [reflexivity|]. split; [exact Hperm|]. split; [lia|].
    split; [exact Hdead|].
    replace (length nodes - numDead) with i by lia. exact Hkept.
Qed.

(** C6 (amended): [moveDeadNodes] ends for every node list and grace
    window; it rearranges the list and returns an index [r] such that every
    node at an index [>= r] is dead for longer than the window, no node
    below [r] is, and the nodes below [r] are the kept nodes of the input
    (each as often as in the input), in an order that need not be their
    input order. *)
Theorem moveDeadNodes_partitions (nodes : list nodeState) :
  exists final r,
    moveDeadNodes now nodes g = Done (final, r) /\
    final ≡ₚ nodes /\
    r <= length final /\
    Forall (evictable now g) (drop r final) /\
    Forall (fun nd => ~ evictable now g nd) (take r final) /\
    take r final ≡ₚ filter (fun nd => ~ evictable now g nd) nodes.
Proof.
  destruct (moveDeadNodes_loop_partitions nodes (S (length nodes)) nodes 0 0)
    as (final & r & Hrun & Hperm & Hr & Hdead & Hkept).
  - reflexivity.
  - lia.
  - lia.
  - rewrite take_0. constructor.
  - rewrite Nat.sub_0_r, drop_all. constructor.
  - exists final, r. unfold moveDeadNodes.
    repeat (split; [assumption|]).
    rewrite <- Hperm.
    rewrite <- (take_drop r final) at 2.
    rewrite filter_app, (filter_all _ _ Hkept), filter_none, app_nil_r;
      [reflexivity|].
    eapply Forall_impl; [exact Hdead|]. simpl. tauto.
Qed.

End NodesFacts.

(** C6, as stated, fails on the order of the kept nodes: with a dead node
    past the window in front of an alive and a suspect node, the dead node
    is exchanged with the last one, and the two kept nodes come out in
    the opposite order. *)
Lemma moveDeadNodes_reorders_kept_nodes :
  let D := Nodes.mkNode Nodes.stateDead 0 in
  let A := Nodes.mkNode Nodes.stateAlive 0 in
  let S := Nodes.mkNode Nodes.stateSuspect 0 in
  Nodes.moveDeadNodes 100 [D; A; S] 10 = Done ([S; A; D], 2) /\
  ~ Nodes.partition_in_order 100 10 [D; A; S] [S; A; D] 2.
Proof.
  split; [vm_compute; reflexivity|].
  intros (_ & _ & Horder). vm_compute in Horder. discriminate.
Qed.

(** ** Random sampling *)
Section SamplingFacts.

Import Sampling.

Context {ptr : Type} `{EqDecision ptr}.
Variable rng : nat -> Z.

Lemma randomOffset_in_range (pos : nat) (n : nat) :
  0 < n ->
  (Z.of_nat n < 4294967296)%Z ->
  exists idx,
    randomOffset rng pos (Z.of_nat n) = Done (idx, S pos) /\
    (0 <= idx < Z.of_nat n)%Z.
Proof.
  intros Hpos Hsmall. unfold randomOffset.
  destruct (decide _) as [?|_]; [lia|].
  assert (Hn : uint32 (Z.of_nat n) = Z.of_nat n)
    by (unfold uint32; apply Z.mod_small; lia).
  rewrite Hn.
  destruct (decide _) as [?|_]; [lia|].
  eexists. split; [reflexivity|].
  apply Z.mod_pos_bound. lia.
Qed.

(** The loop keeps the selection duplicate-free, inside the node list and
    free of excluded nodes, never beyond [k] elements, and makes one draw
    per iteration; it stops early only with [k] elements. *)
Lemma kRandomNodes_loop_selects (k : Z) (nodes : list ptr)
    (filterFn : option (ptr -> bool)) :
  0 < length nodes ->
  (Z.of_nat (length nodes) < 4294967296)%Z ->
  forall (todo pos : nat) (kNodes : list ptr),
    NoDup kNodes ->
    kNodes ⊆ nodes ->
    Forall (fun x => excluded filterFn x = false) kNodes ->
    (Z.of_nat (length kNodes) <= k)%Z ->
    exists res pos',
      kRandomNodes_loop rng todo k nodes filterFn pos kNodes = Done (res, pos') /\
      NoDup res /\
      res ⊆ nodes /\
      Forall (fun x => excluded filterFn x = false) res /\
      (Z.of_nat (length res) <= k)%Z /\
      pos' <= pos + todo /\
      (Z.of_nat (length res) = k \/ pos' = pos + todo).
Proof.
  intros Hne Hsmall.
  induction todo as [|todo IH]; intros pos kNodes Hnd Hsub Hfil Hlen; simpl.
  - exists kNodes, pos. repeat split; try assumption; lia.
  - destruct (decide _) as [Hlt|Hge].
    + destruct (randomOffset_in_range pos (length nodes) Hne Hsmall)
        as (idx & -> & Hidx).
      destruct (lookup_lt_is_Some_2 nodes (Z.to_nat idx) ltac:(lia))
        as [node Hnode].
      rewrite Hnode.
      assert (Hskip :
        exists res pos',
          kRandomNodes_loop rng todo k nodes filterFn (S pos) kNodes
          = Done (res, pos') /\ NoDup res /\ res ⊆ nodes /\
          Forall (fun x => excluded filterFn x = false) res /\
          (Z.of_nat (length res) <= k)%Z /\ pos' <= pos + S todo /\
          (Z.of_nat (length res) = k \/ pos' = pos + S todo)).
      { destruct (IH (S pos) kNodes Hnd Hsub Hfil Hlen)
          as (res & pos' & Hrun & H1 & H2 & H3 & H4 & H5 & H6).
        exists res, pos'. repeat split; try assumption; lia. }
      destruct (excluded filterFn node) eqn:Hex; [exact Hskip|].
      destruct (decide (node ∈ kNodes)) as [Hin|Hnin]; [exact Hskip|].
      destruct (IH (S pos) (kNodes ++ [node])) as
        (res & pos' & Hrun & H1 & H2 & H3 & H4 & H5 & H6).
      * apply NoDup_app. split; [assumption|].
        split; [|apply NoDup_singleton].
        intros x Hx Hx'. apply list_elem_of_singleton in Hx'. subst. contradiction.
      * intros x Hx. apply elem_of_app in Hx as [Hx|Hx]; [now apply Hsub|].
        apply list_elem_of_singleton in Hx. subst.
        eapply list_elem_of_lookup_2. exact Hnode.
      * apply Forall_app. split; [assumption|]. constructor; [exact Hex|constructor].
      * rewrite length_app; simpl. lia.
      * exists res, pos'. repeat split; try assumption; lia.
    + exists kNodes, pos. repeat split; try assumption; lia.
Qed.


End SamplingFacts.



(** ** Wire envelope and payload compression *)
Section EnvelopeFacts.

Import Envelope.

(** The envelope is the tag byte in front of the codec's output, and the
    codec reads its own output back. *)
Lemma encode_body_decodes {T : Type} `{CodecRoundTrip T}
    (t : byte) (v : T) (buf : list byte) :
  encode t v = (buf, None) ->
  exists body,
    buf = t :: body /\ codec_Encode v = (body, None) /\
    codec_Decode body = Ok v.
Proof.
  unfold encode.
  destruct (codec_Encode v) as [body err] eqn:Henc.
  intros Hbuf. injection Hbuf as <- ->.
  exists body. split; [reflexivity|]. split; [reflexivity|].
  apply codec_round_trip. exact Henc.
Qed.


Context `{CodecRoundTrip compress} `{LzwRoundTrip}.
Variables lzwAlgo compressMsg : byte.

(** C8: for every payload [p] that [compressPayload] turns into a buffer
    without error, the buffer is the compress tag followed by a body, and
    [decompressPayload] applied to that body succeeds and returns exactly
    [p].  The LZW compressor and the msgpack codec are libraries, taken
    with their round-trip contracts. *)
Theorem compress_decompress_roundtrip (p buf : list byte) :
  compressPayload lzwAlgo compressMsg p = (buf, None) ->
  head buf = Some compressMsg /\
  decompressPayload lzwAlgo (drop 1 buf) = Ok p.
Proof.
  unfold compressPayload, decompressPayload.
  destruct (lzw_Write p) as [c|e] eqn:Hw; [|discriminate].
  intros Henc.
  destruct (encode_body_decodes _ _ _ Henc) as (body & -> & _ & Hdec).
  split; [reflexivity|].
  unfold decode. simpl. rewrite drop_0, Hdec.
  unfold decompressBuffer; simpl.
  destruct (decide _) as [Hne|_]; [contradiction|].
  apply lzw_round_trip. exact Hw.
Qed.

End EnvelopeFacts.

Lemma plain_codec_round_trip :
  @Envelope.CodecRoundTrip Envelope.compress Envelope.plain_codec.
Proof.
  intros [a c] body Henc. simpl in Henc. injection Henc as <-. reflexivity.
Defined.

Lemma stored_lzw_round_trip : @Envelope.LzwRoundTrip Envelope.stored_lzw.
Proof. intros inp c Hw. simpl in *. injection Hw as <-. reflexivity. Defined.


(** The compression round trip on the plain codec and the storing
    compressor. *)
Lemma compress_decompress_roundtrip_witness :
  head [Byte.x09; Byte.x00; Byte.x41; Byte.x42] = Some Byte.x09 /\
  @Envelope.decompressPayload Envelope.plain_codec Envelope.stored_lzw Byte.x00
    (drop 1 [Byte.x09; Byte.x00; Byte.x41; Byte.x42])
  = Envelope.Ok [Byte.x41; Byte.x42].
Proof.
  apply (@compress_decompress_roundtrip Envelope.plain_codec
           plain_codec_round_trip Envelope.stored_lzw stored_lzw_round_trip
           Byte.x00 Byte.x09 [Byte.x41; Byte.x42]
           [Byte.x09; Byte.x00; Byte.x41; Byte.x42]).
  reflexivity.
Defined.

(** [decode] does not strip the tag itself: run on the whole output of
    [encode], the plain codec takes the tag byte for data. *)
Lemma decode_whole_buffer_plain :
  @Envelope.decode _ Envelope.plain_codec
    (fst (@Envelope.encode _ Envelope.plain_codec Byte.x09
            (Envelope.mkCompress Byte.x00 [Byte.x41])))
  = Envelope.Ok (Envelope.mkCompress Byte.x09 [Byte.x00; Byte.x41]).
Proof. reflexivity. Qed.

(** * Further properties *)

(** ** Unpacking arbitrary buffers *)

Lemma upto_le (s : slice) (n : nat) :
  n <= len s ->
  upto s n = Some (mk (take n (vis s)) (drop n (vis s) ++ spare s)).
Proof.
  intros Hn. destruct s as [v sp]; unfold len in Hn; simpl in *.
  pose proof (upto_app (take n v) (drop n v) sp) as H.
  rewrite take_drop, length_take in H.
  replace (n `min` length v) with n in H by lia. exact H.
Qed.

Lemma from_le (s : slice) (n : nat) :
  n <= len s ->
  from s n = Some (mk (drop n (vis s)) (spare s)).
Proof.
  intros Hn. destruct s as [v sp]; unfold len in Hn; simpl in *.
  pose proof (from_app (take n v) (drop n v) sp) as H.
  rewrite take_drop, length_take in H.
  replace (n `min` length v) with n in H by lia. exact H.
Qed.

(** A two-byte window is always readable. *)
Lemma Uint16_window (s : slice) (lo : nat) :
  lo + 2 <= cap s ->
  exists w v, reslice s lo (lo + 2) = Some w /\ BigEndian_Uint16 w = Some v.
Proof.
  intros Hcap. unfold reslice.
  destruct (decide _) as [_|Hn]; [|lia].
  replace (lo + 2 - lo) with 2 by lia.
  assert (Hlen : 2 <= length (drop lo (vis s ++ spare s))).
  { rewrite length_drop, length_app. unfold cap in Hcap. lia. }
  destruct (drop lo (vis s ++ spare s)) as [|b0 [|b1 l]]; simpl in Hlen; try lia.
  eexists _, _. split; reflexivity.
Qed.

(** The length table is read entry by entry up to the capacity of the
    buffer: the reads succeed exactly when the buffer has room for all the
    entries, and then give one length per entry. *)
Lemma decode_lengths_cap (buf : slice) (todo : nat) :
  forall i,
    match decode_lengths buf i todo with
    | Some ls => length ls = todo /\ (todo = 0 \/ (i + todo) * 2 <= cap buf)
    | None => 0 < todo /\ cap buf < (i + todo) * 2
    end.
Proof.
  induction todo as [|todo IH]; intros i; simpl.
  - split; [reflexivity|left; reflexivity].
  - destruct (decide (i * 2 + 2 <= cap buf)) as [Hok|Hno].
    + destruct (Uint16_window buf (i * 2) Hok) as (w & v & -> & ->).
      specialize (IH (S i)).
      destruct (decode_lengths buf (S i) todo) as [ls|].
      * destruct IH as [Hlen Hcap]. simpl. split; [lia|]. right. lia.
      * split; lia.
    + unfold reslice. destruct (decide _) as [Hc|_]; [lia|]. split; lia.
Qed.

(** The body loop on any buffer: it never panics and never reports an
    error; it either takes every entry, or stops at the first entry whose
    body is not whole and reports the entries left; the parts are taken
    from the front of the buffer, one after the other. *)
Lemma split_parts_shape (numParts : byte) (lengths : list N) :
  forall (idx : nat) (buf : slice) (parts : list slice),
  exists trunc ps rem,
    split_parts numParts lengths idx buf parts = Ret trunc ps None /\
    concat (contents parts) ++ vis buf = concat (contents ps) ++ rem /\
    ((trunc = 0%Z /\ length ps = length parts + length lengths) \/
     (exists d, d < length lengths /\ length ps = length parts + d /\
                trunc = (Z.of_N (Byte.to_N numParts) - Z.of_nat (idx + d))%Z)).
Proof.
  induction lengths as [|l lengths IH]; intros idx buf parts; simpl.
  - exists 0%Z, parts, (vis buf). split; [reflexivity|]. split; [reflexivity|].
    left. split; [reflexivity|lia].
  - destruct (decide _) as [Hlt|Hge].
    + exists (Z.of_N (Byte.to_N numParts) - Z.of_nat idx)%Z, parts, (vis buf).
      split; [reflexivity|]. split; [reflexivity|].
      right. exists 0. repeat split; try lia.
    + rewrite upto_le, from_le by lia.
      destruct (IH (S idx) (mk (drop (N.to_nat l) (vis buf)) (spare buf))
                  (parts ++ [mk (take (N.to_nat l) (vis buf))
                                (drop (N.to_nat l) (vis buf) ++ spare buf)]))
        as (trunc & ps & rem & Hrun & Hcat & Hshape).
      exists trunc, ps, rem. split; [exact Hrun|]. split.
      * rewrite <- Hcat. unfold contents. rewrite map_app, concat_app. simpl.
        rewrite app_nil_r, <- app_assoc, take_drop. reflexivity.
      * rewrite length_app in Hshape. simpl in Hshape.
        destruct Hshape as [[H0 Hl]|(d & Hd & Hl & Ht)].
        -- left. split; [exact H0|lia].
        -- right. exists (S d). repeat split; try lia.
Qed.

(** X1: whatever the buffer, [decodeCompoundMessage] panics exactly when
    the length check passes although the backing array is too short for
    the length table: the buffer is not empty, at least [numParts*2]
    (computed in [uint8]) bytes follow the count byte, and fewer than
    [2*count] bytes follow it within the capacity. *)
Theorem decode_panics_iff (buf : slice) :
  decodeCompoundMessage buf = Panic <->
  exists c rest,
    vis buf = c :: rest /\
    numParts_times2 c <= length rest /\
    length rest + length (spare buf) < 2 * N.to_nat (Byte.to_N c).
Proof.
  destruct buf as [[|c rest] sp].
  - split; [discriminate|]. intros (c & rest & Hv & _). discriminate.
  - rewrite decode_cons. simpl.
    pose proof (decode_lengths_cap (mk rest sp) (N.to_nat (Byte.to_N c)) 0)
      as Hls.
    unfold cap in Hls; simpl in Hls.
    destruct (decide _) as [Hlt|Hge].
    + split; [discriminate|].
      intros (c' & rest' & Hv & Hwrap & _). injection Hv as <- <-. lia.
    + destruct (decode_lengths _ _ _) as [ls|].
      * rewrite from_le by (unfold len; simpl; lia). cbn [vis spare].
        destruct (split_parts_shape c ls 0
                    (mk (drop (numParts_times2 c) rest) sp) [])
          as (trunc & ps & rem & -> & _).
        split; [discriminate|].
        intros (c' & rest' & Hv & _ & Hcap). injection Hv as <- <-. lia.
      * split; [|reflexivity]. intros _. exists c, rest.
        split; [reflexivity|]. split; lia.
Qed.

(** X2: for every buffer whose count byte is at most 127,
    [decodeCompoundMessage] returns without panicking, whatever the
    length and capacity of the buffer. *)
Theorem decode_small_count_no_panic (c : byte) (rest sp : list byte) :
  (Byte.to_N c <= 127)%N ->
  decodeCompoundMessage (mk (c :: rest) sp) <> Panic.
Proof.
  intros Hc. rewrite decode_cons.
  pose proof (numParts_times2_value c) as Hw.
  destruct (decide (Byte.to_N c <= 127)%N) as [_|Hn]; [|contradiction].
  destruct (decide _) as [Hlt|Hge]; [discriminate|].
  pose proof (decode_lengths_cap (mk rest sp) (N.to_nat (Byte.to_N c)) 0)
    as Hls.
  unfold cap in Hls; simpl in Hls.
  destruct (decode_lengths _ _ _) as [ls|]; [|lia].
  rewrite from_le by (unfold len; simpl; lia). cbn [vis spare].
  destruct (split_parts_shape c ls 0
              (mk (drop (numParts_times2 c) rest) sp) [])
    as (trunc & ps & rem & -> & _).
  discriminate.
Qed.

Lemma decode_small_count_no_panic_witness :
  decodeCompoundMessage (mk [Byte.x03; Byte.x00] [Byte.x01]) <> Panic.
Proof.
  apply (decode_small_count_no_panic Byte.x03 [Byte.x00] [Byte.x01]).
  vm_compute. discriminate.
Defined.

(** X3: whatever the buffer, a return with an error carries no part and
    no truncation count; a return without error accounts for every
    announced message: the truncation count is not negative and the
    number of parts plus the truncation count is the count byte. *)
Theorem decode_accounts_for_count (buf : slice) :
  match decodeCompoundMessage buf with
  | Ret trunc parts (Some e) => trunc = 0%Z /\ parts = []
  | Ret trunc parts None =>
      exists c rest,
        vis buf = c :: rest /\
        (0 <= trunc)%Z /\
        (Z.of_nat (length parts) + trunc = Z.of_N (Byte.to_N c))%Z
  | Panic => True
  end.
Proof.
  destruct buf as [[|c rest] sp].
  - simpl. split; reflexivity.
  - rewrite decode_cons.
    destruct (decide _) as [Hlt|Hge]; [split; reflexivity|].
    pose proof (decode_lengths_cap (mk rest sp) (N.to_nat (Byte.to_N c)) 0)
      as Hls.
    destruct (decode_lengths _ _ _) as [ls|]; [|exact I].
    destruct Hls as [Hlen _].
    rewrite from_le by (unfold len; simpl; lia). cbn [vis spare].
    destruct (split_parts_shape c ls 0
                (mk (drop (numParts_times2 c) rest) sp) [])
      as (trunc & ps & rem & -> & _ & Hshape).
    exists c, rest. split; [reflexivity|].
    simpl in Hshape.
    destruct Hshape as [[-> Hl]|(d & Hd & Hl & ->)]; lia.
Qed.

(** X4: the parts returned are consecutive pieces of the buffer: put end
    to end they are a prefix of what follows the first [numParts*2]
    (computed in [uint8]) bytes after the count byte. *)
Theorem decode_parts_contiguous (c : byte) (rest sp : list byte)
    (trunc : Z) (parts : list slice) :
  decodeCompoundMessage (mk (c :: rest) sp) = Ret trunc parts None ->
  exists rem,
    drop (numParts_times2 c) rest = concat (contents parts) ++ rem.
Proof.
  rewrite decode_cons.
  destruct (decide _) as [Hlt|Hge]; [discriminate|].
  destruct (decode_lengths _ _ _) as [ls|]; [|discriminate].
  rewrite from_le by (unfold len; simpl; lia). cbn [vis spare].
  destruct (split_parts_shape c ls 0
              (mk (drop (numParts_times2 c) rest) sp) [])
    as (trunc' & ps & rem & -> & Hcat & _).
  intros Hret. injection Hret as <- <-.
  exists rem. exact Hcat.
Qed.

Lemma decode_parts_contiguous_witness :
  exists rem,
    drop (numParts_times2 Byte.x01) [Byte.x00; Byte.x01; Byte.x41; Byte.x42]
    = concat (contents [mk [Byte.x41] [Byte.x42]]) ++ rem.
Proof.
  apply (decode_parts_contiguous Byte.x01
           [Byte.x00; Byte.x01; Byte.x41; Byte.x42] [] 0
           [mk [Byte.x41] [Byte.x42]]).
  reflexivity.
Defined.

(** ** Frames cut in the middle, frames followed by other bytes *)

(** [split_parts_bodies] with bytes left after the bodies of [A]. *)
Lemma split_parts_bodies_rest (numParts : byte) (A : list (list byte)) :
  forall (B : list (list byte)) (idx : nat) (rest sp : list byte)
         (parts : list slice),
    fits16 A ->
    split_parts numParts (map len16 (A ++ B)) idx (mk (concat A ++ rest) sp) parts
    = split_parts numParts (map len16 B) (idx + length A) (mk rest sp)
        (parts ++ parts_of A (rest ++ sp)).
Proof.
  induction A as [|a A IH]; intros B idx rest sp parts HA; simpl.
  - rewrite app_nil_r. f_equal. lia.
  - inversion HA as [|? ? Ha HA']; subst.
    rewrite len16_small by assumption.
    unfold len at 1; simpl.
    destruct (decide _) as [Hlt|_]; [rewrite !length_app in Hlt; lia|].
    rewrite <- (app_assoc a (concat A) rest).
    rewrite upto_app, from_app.
    rewrite IH by assumption.
    rewrite <- (app_assoc parts); simpl.
    rewrite <- (app_assoc (concat A) rest sp).
    f_equal. lia.
Qed.

Lemma decode_frame_rest (A B : list (list byte)) (rest sp : list byte) :
  length (A ++ B) <= 127 ->
  fits16 A ->
  match B with
  | [] => True
  | m :: _ => length rest < length m /\ (N.of_nat (length m) <= 65535)%N
  end ->
  decodeCompoundMessage
    (mk (uint8 (N.of_nat (length (A ++ B)))
           :: table (A ++ B) ++ concat A ++ rest) sp)
  = Ret (Z.of_nat (length B)) (parts_of A (rest ++ sp)) None.
Proof.
  intros Hn HA HB.
  set (L := A ++ B) in *.
  set (cnt := uint8 (N.of_nat (length L))).
  assert (Hcnt : Byte.to_N cnt = N.of_nat (length L))
    by (apply uint8_small; lia).
  assert (H2 : numParts_times2 cnt = length (table L)).
  { unfold numParts_times2. rewrite Hcnt, length_table.
    rewrite N.mod_small by lia. lia. }
  rewrite decode_cons.
  destruct (decide _) as [Hlt|_]; [rewrite length_app in Hlt; lia|].
  rewrite Hcnt, Nat2N.id.
  pose proof (decode_lengths_table L [] (concat A ++ rest) sp 0 eq_refl) as Hls.
  change ([] ++ table L ++ concat A ++ rest)
    with (table L ++ concat A ++ rest) in Hls.
  rewrite Hls, H2, from_app.
  subst L. rewrite split_parts_bodies_rest by assumption.
  destruct B as [|m B]; simpl.
  - f_equal.
  - destruct HB as [Hrest Hm]. rewrite len16_small by assumption.
    unfold len; simpl.
    destruct (decide _) as [_|Hge]; [|lia].
    f_equal. rewrite Hcnt, length_app. simpl. lia.
Qed.



(** X6: for at most 127 messages of at most 65535 bytes, bytes that
    follow a whole frame in the buffer are ignored: unpack returns the
    messages, truncation count 0, and no error. *)
Theorem decode_ignores_trailing_bytes (tag : byte) (msgs : list (list byte))
    (extra sp : list byte) :
  length msgs <= 127 ->
  fits16 msgs ->
  exists parts,
    decodeCompoundMessage (mk (tl (makeCompoundMessage tag msgs) ++ extra) sp)
    = Ret 0 parts None /\
    contents parts = msgs.
Proof.
  intros Hn Hfit.
  exists (parts_of msgs (extra ++ sp)). split; [|apply contents_parts_of].
  rewrite makeCompoundMessage_layout. simpl tl.
  pose proof (decode_frame_rest msgs [] extra sp) as H.
  rewrite app_nil_r in H. simpl in H.
  rewrite <- app_comm_cons, <- app_assoc. apply H; auto.
Qed.

Lemma decode_ignores_trailing_bytes_witness :
  exists parts,
    decodeCompoundMessage
      (mk (tl (makeCompoundMessage Byte.x07 [[Byte.x01]; []]) ++ [Byte.xff]) [])
    = Ret 0 parts None /\
    contents parts = [[Byte.x01]; []].
Proof.
  apply (decode_ignores_trailing_bytes Byte.x07 [[Byte.x01]; []] [Byte.xff] []).
  - simpl; lia.
  - repeat constructor; vm_compute; discriminate.
Defined.

(** ** The frame as a format *)

(** X7: a frame is two header bytes, two bytes per message, and the
    bodies: its length is [2 + 2*len(msgs)] plus the total length of the
    messages, for every list. *)
Theorem makeCompoundMessage_length (tag : byte) (msgs : list (list byte)) :
  length (makeCompoundMessage tag msgs)
  = 2 + 2 * length msgs + length (concat msgs).
Proof.
  rewrite makeCompoundMessage_layout. simpl.
  rewrite length_app, length_table. lia.
Qed.

Lemma PutUint16_inj (v1 v2 : N) :
  (v1 < 65536)%N -> (v2 < 65536)%N ->
  BigEndian_PutUint16 v1 = BigEndian_PutUint16 v2 -> v1 = v2.
Proof.
  intros H1 H2 Heq.
  pose proof (Uint16_PutUint16 v1 [] H1) as E1.
  pose proof (Uint16_PutUint16 v2 [] H2) as E2.
  rewrite Heq in E1. congruence.
Qed.

Lemma table_lengths_inj (L1 : list (list byte)) :
  forall L2 (x1 x2 : list byte),
    length L1 = length L2 ->
    fits16 L1 -> fits16 L2 ->
    table L1 ++ x1 = table L2 ++ x2 ->
    map length L1 = map length L2 /\ x1 = x2.
Proof.
  induction L1 as [|m1 L1 IH]; intros [|m2 L2] x1 x2 Hlen H1 H2 Heq;
    simpl in Hlen; try discriminate.
  - split; [reflexivity|exact Heq].
  - inversion H1 as [|? ? Hm1 H1']; inversion H2 as [|? ? Hm2 H2']; subst.
    change (table (m1 :: L1)) with (BigEndian_PutUint16 (len16 m1) ++ table L1)
      in Heq.
    change (table (m2 :: L2)) with (BigEndian_PutUint16 (len16 m2) ++ table L2)
      in Heq.
    simpl in Heq. injection Heq as Hhi Hlo Hrest.
    destruct (IH L2 x1 x2 ltac:(lia) H1' H2' Hrest) as [Hmap Hx].
    split; [|exact Hx]. simpl. f_equal; [|exact Hmap].
    rewrite <- (len16_small m1), <- (len16_small m2) by assumption.
    f_equal. apply PutUint16_inj; try apply len16_bound.
    unfold BigEndian_PutUint16. now rewrite Hhi, Hlo.
Qed.

Lemma concat_inj_lengths {X} (L1 : list (list X)) :
  forall L2,
    map length L1 = map length L2 -> concat L1 = concat L2 -> L1 = L2.
Proof.
  induction L1 as [|a L1 IH]; intros [|c L2] Hmap Hcat; simpl in *;
    try discriminate; [reflexivity|].
  injection Hmap as Hl Hmap.
  apply app_inj_1 in Hcat as [-> Hcat]; [|exact Hl].
  f_equal. apply IH; assumption.
Qed.

(** X8: packing loses nothing within the bounds of the format: two lists
    of at most 255 messages of at most 65535 bytes with the same frame
    are the same list (and have the same tag). *)
Theorem makeCompoundMessage_inj (tag1 tag2 : byte)
    (L1 L2 : list (list byte)) :
  length L1 <= 255 -> length L2 <= 255 ->
  fits16 L1 -> fits16 L2 ->
  makeCompoundMessage tag1 L1 = makeCompoundMessage tag2 L2 ->
  tag1 = tag2 /\ L1 = L2.
Proof.
  intros Hn1 Hn2 Hf1 Hf2 Heq.
  rewrite !makeCompoundMessage_layout in Heq.
  injection Heq as Htag Hcnt Hrest.
  split; [exact Htag|].
  assert (Hlen : length L1 = length L2).
  { apply (f_equal Byte.to_N) in Hcnt.
    rewrite !uint8_small in Hcnt by lia. lia. }
  destruct (table_lengths_inj L1 L2 _ _ Hlen Hf1 Hf2 Hrest) as [Hmap Hcat].
  apply concat_inj_lengths; assumption.
Qed.

Lemma makeCompoundMessage_inj_witness :
  Byte.x07 = Byte.x07 /\ [[Byte.x01]; []] = [[Byte.x01]; []].
Proof.
  apply (makeCompoundMessage_inj Byte.x07 Byte.x07 [[Byte.x01]; []]
           [[Byte.x01]; []]).
  - simpl; lia.
  - simpl; lia.
  - repeat constructor; vm_compute; discriminate.
  - repeat constructor; vm_compute; discriminate.
  - reflexivity.
Defined.

(** ** More on dead-node compaction *)
Section NodesMore.

Import Nodes.

Variables now g : Z.

(** X9: [moveDeadNodes] keeps the length of the list, and the index it
    returns is the number of nodes of the input that are not both dead
    and past the grace window (so 0 when every node is to be evicted and
    [len(nodes)] when none is). *)
Theorem moveDeadNodes_index_is_kept_count (nodes : list nodeState) :
  exists final r,
    moveDeadNodes now nodes g = Done (final, r) /\
    length final = length nodes /\
    r = length (filter (fun nd => ~ evictable now g nd) nodes).
Proof.
  destruct (moveDeadNodes_loop_partitions now g nodes (S (length nodes))
              nodes 0 0)
    as (final & r & Hrun & Hperm & Hr & Hdead & Hkept).
  - reflexivity.
  - lia.
  - lia.
  - rewrite take_0. constructor.
  - rewrite Nat.sub_0_r, drop_all. constructor.
  - exists final, r. split; [exact Hrun|].
    split; [now rewrite Hperm|].
    rewrite <- Hperm.
    rewrite <- (take_drop r final) at 1.
    rewrite filter_app, (filter_all _ _ Hkept), filter_none, app_nil_r.
    + rewrite length_take. lia.
    + eapply Forall_impl; [exact Hdead|]. simpl. tauto.
Qed.

(** The loop writes only at and behind the first node it moves. *)
Lemma moveDeadNodes_loop_front (p : nat) :
  forall (fuel : nat) (nodes : list nodeState) (i numDead : nat)
         (final : list nodeState) (r : nat),
    i + numDead <= length nodes ->
    Forall (fun nd => ~ evictable now g nd) (take p nodes) ->
    moveDeadNodes_loop fuel now g nodes (length nodes) i numDead
    = Done (final, r) ->
    take p final = take p nodes.
Proof.
  induction fuel as [|fuel IH]; intros nodes i numDead final r Hle Hfront;
    simpl; [discriminate|].
  destruct (decide (i < length nodes - numDead)) as [Hlt|Hge].
  - destruct (nodes !! i) as [nd|] eqn:Hnd; [|discriminate].
    destruct (decide (State nd <> stateDead)) as [Hs|Hs];
      [apply IH; [lia|assumption]|].
    destruct (decide (time_Since now (StateChange nd) <= g)%Z) as [Ht|Ht];
      [apply IH; [lia|assumption]|].
    assert (Hev : evictable now g nd).
    { split; [|lia]. destruct (decide (State nd = stateDead)); tauto. }
    assert (Hpi : p <= i).
    { destruct (decide (p <= i)) as [|Hn]; [assumption|]. exfalso.
      rewrite Forall_forall in Hfront. apply (Hfront nd); [|exact Hev].
      apply list_elem_of_lookup. exists i.
      rewrite lookup_take_lt by lia. exact Hnd. }
    set (e := length nodes - numDead - 1) in *.
    destruct (nodes !! e) as [last|] eqn:Hlast; [|discriminate].
    set (nodes' := <[e := nd]> (<[i := last]> nodes)).
    assert (Hlen : length nodes' = length nodes)
      by (subst nodes'; now rewrite !length_insert).
    assert (Htake : take p nodes' = take p nodes)
      by (subst nodes'; rewrite !take_insert_ge by (subst e; lia); reflexivity).
    rewrite <- Hlen. intros Hrun.
    rewrite <- Htake. apply (IH nodes' i (S numDead) final r).
    + lia.
    + rewrite Htake. exact Hfront.
    + exact Hrun.
  - intros Hrun. injection Hrun as <- <-. reflexivity.
Qed.

(** X10: the nodes in front of the first node to evict stay where they
    are: if none of the first [p] nodes is dead and past the grace window,
    the first [p] nodes of the list after the call are the first [p]
    nodes of the input, and the index returned is at least [p].  In
    particular a list with no node to evict is left as it is. *)
Theorem moveDeadNodes_keeps_front (nodes : list nodeState) (p : nat) :
  p <= length nodes ->
  Forall (fun nd => ~ evictable now g nd) (take p nodes) ->
  exists final r,
    moveDeadNodes now nodes g = Done (final, r) /\
    take p final = take p nodes /\
    p <= r.
Proof.
  intros Hp Hfront.
  destruct (moveDeadNodes_loop_partitions now g nodes (S (length nodes))
              nodes 0 0)
    as (final & r & Hrun & Hperm & Hr & Hdead & Hkept).
  - reflexivity.
  - lia.
  - lia.
  - rewrite take_0. constructor.
  - rewrite Nat.sub_0_r, drop_all. constructor.
  - exists final, r. split; [exact Hrun|].
    assert (Htake : take p final = take p nodes).
    { apply (moveDeadNodes_loop_front p (S (length nodes)) nodes 0 0 final r);
        [lia|assumption|exact Hrun]. }
    split; [exact Htake|].
    destruct (decide (p <= r)) as [|Hn]; [assumption|]. exfalso.
    assert (Hlen : length final = length nodes) by now rewrite Hperm.
    destruct (lookup_lt_is_Some_2 final r ltac:(lia)) as [nd Hnd].
    rewrite Forall_forall in Hdead, Hfront.
    apply (Hfront nd).
    + rewrite <- Htake. apply list_elem_of_lookup. exists r.
      rewrite lookup_take_lt by lia. exact Hnd.
    + apply Hdead. apply list_elem_of_lookup. exists 0.
      rewrite lookup_drop, Nat.add_0_r. exact Hnd.
Qed.
End NodesMore.

Lemma moveDeadNodes_keeps_front_witness :
  exists final r,
    Nodes.moveDeadNodes 100
      [Nodes.mkNode Nodes.stateAlive 0; Nodes.mkNode Nodes.stateDead 0;
       Nodes.mkNode Nodes.stateSuspect 0] 10
    = Done (final, r) /\
    take 1 final
    = take 1 [Nodes.mkNode Nodes.stateAlive 0; Nodes.mkNode Nodes.stateDead 0;
              Nodes.mkNode Nodes.stateSuspect 0] /\
    1 <= r.
Proof.
  apply (moveDeadNodes_keeps_front 100 10
           [Nodes.mkNode Nodes.stateAlive 0; Nodes.mkNode Nodes.stateDead 0;
            Nodes.mkNode Nodes.stateSuspect 0] 1).
  - simpl; lia.
  - simpl. constructor; [|constructor].
    intros [Hdead _]. simpl in Hdead. discriminate.
Defined.

(** ** Shuffling *)

(** X11: whatever calls [rand.Shuffle] makes to the swap closure of
    [shuffleNodes], if every index is within the list the nodes after the
    call are a rearrangement of the nodes before it; the call panics
    exactly when some index is out of range. *)
Theorem shuffleNodes_permutes {A : Type} (calls : list (nat * nat)) :
  forall nodes : list A,
    let in_range := Forall (fun c => fst c < length nodes /\ snd c < length nodes) calls in
    match Shuffle.shuffleNodes calls nodes with
    | Done final => in_range /\ final ≡ₚ nodes
    | Panicked => ~ in_range
    | OutOfFuel => False
    end.
Proof.
  induction calls as [|[i j] calls IH]; intros nodes; simpl.
  - split; [constructor|reflexivity].
  - unfold Shuffle.swap.
    destruct (nodes !! i) as [x|] eqn:Hi.
    + destruct (nodes !! j) as [y|] eqn:Hj.
      * specialize (IH (<[j:=x]> (<[i:=y]> nodes))).
        simpl in IH. rewrite !length_insert in IH.
        pose proof (lookup_lt_Some _ _ _ Hi). pose proof (lookup_lt_Some _ _ _ Hj).
        destruct (Shuffle.shuffleNodes calls _) as [final| |].
        -- destruct IH as [Hr Hperm]. split.
           ++ constructor; [simpl; lia|exact Hr].
           ++ rewrite Hperm. apply swap_perm; assumption.
        -- intros Hr. inversion Hr; subst. contradiction.
        -- exact IH.
      * intros Hr. inversion Hr as [|? ? [_ Hjr] _]; subst. simpl in Hjr.
        apply lookup_ge_None in Hj. lia.
    + intros Hr. inversion Hr as [|? ? [Hir _] _]; subst. simpl in Hir.
      apply lookup_ge_None in Hi. lia.
Qed.

(** ** More on random sampling *)
Section SamplingMore.

Import Sampling.

Context {ptr : Type} `{EqDecision ptr}.
Variable rng : nat -> Z.

(** X12: [randomOffset(n)] makes no draw and returns 0 for [n = 0];
    otherwise it makes one draw and returns a non-negative offset below
    [uint32(n)], unless [uint32(n)] is 0 (a non-zero multiple of 2^32),
    where the remainder panics. *)
Theorem randomOffset_cases (pos : nat) (n : Z) :
  match randomOffset rng pos n with
  | Done (idx, pos') =>
      (n = 0 /\ idx = 0 /\ pos' = pos)%Z \/
      (n <> 0 /\ 0 <= idx < uint32 n /\ pos' = S pos)%Z
  | Panicked => (n <> 0 /\ n mod 4294967296 = 0)%Z
  | OutOfFuel => False
  end.
Proof.
  unfold randomOffset.
  destruct (decide (n = 0)%Z) as [->|Hn]; [left; repeat split|].
  destruct (decide (uint32 n = 0)%Z) as [Hz|Hz]; [split; assumption|].
  right. split; [exact Hn|]. split; [|reflexivity].
  apply Z.mod_pos_bound.
  pose proof (Z.mod_pos_bound n 4294967296 ltac:(lia)). unfold uint32 in *. lia.
Qed.

(** The loop only appends to the selection. *)
Lemma kRandomNodes_loop_extends (k : Z) (nodes : list ptr)
    (filterFn : option (ptr -> bool)) :
  forall (todo pos : nat) (kNodes res : list ptr) (pos' : nat),
    kRandomNodes_loop rng todo k nodes filterFn pos kNodes = Done (res, pos') ->
    kNodes `prefix_of` res.
Proof.
  induction todo as [|todo IH]; intros pos kNodes res pos'; simpl.
  - intros Hd. injection Hd as <- <-. reflexivity.
  - destruct (decide _) as [_|_]; [|intros Hd; injection Hd as <- <-; reflexivity].
    destruct (randomOffset rng pos _) as [[idx p1]| |]; try discriminate.
    destruct (nodes !! Z.to_nat idx) as [node|]; [|discriminate].
    destruct (excluded filterFn node); [apply IH|].
    destruct (decide (node ∈ kNodes)); [apply IH|].
    intros Hd. apply IH in Hd.
    etransitivity; [|exact Hd]. apply prefix_app_r. reflexivity.
Qed.



Lemma kRandomNodes_loop_all_excluded (k : Z) (nodes : list ptr)
    (f : ptr -> bool) :
  (1 <= k)%Z ->
  0 < length nodes ->
  (Z.of_nat (length nodes) < 4294967296)%Z ->
  (forall x, x ∈ nodes -> f x = true) ->
  forall todo pos,
    kRandomNodes_loop rng todo k nodes (Some f) pos [] = Done ([], pos + todo).
Proof.
  intros Hk Hne Hsmall Hall.
  induction todo as [|todo IH]; intros pos; simpl.
  - f_equal. f_equal. lia.
  - destruct (decide _) as [_|Hn]; [|simpl in Hn; lia].
    destruct (randomOffset_in_range rng pos (length nodes) Hne Hsmall)
      as (idx & -> & Hidx).
    destruct (lookup_lt_is_Some_2 nodes (Z.to_nat idx) ltac:(lia))
      as [node Hnode].
    rewrite Hnode, (Hall node) by (eapply list_elem_of_lookup_2; exact Hnode).
    rewrite IH. f_equal. f_equal. lia.
Qed.


End SamplingMore.




(** ** More on the suspicion timer *)
Section SuspicionMore.

Variable Timer : Type.
Variable AfterFunc : Z -> Timer.
Variable adjust : Z -> Z -> Z -> Z -> Timer -> Timer.

Local Abbreviation Confirm := (Suspicion.Confirm adjust).
Local Abbreviation Confirm_all := (Suspicion.Confirm_all adjust).
Local Abbreviation Confirm_results := (SuspicionRuns.Confirm_results adjust).
Local Abbreviation newSuspicion := (Suspicion.newSuspicion AfterFunc).
Local Abbreviation state := (Suspicion.suspicion Timer).

Lemma Confirm_size (p : string) (s : state) :
  (-2147483648 <= Suspicion.k s < 2147483648)%Z ->
  (0 <= Suspicion.n s)%Z ->
  Z.of_nat (size (Suspicion.confirmations s)) = (Suspicion.n s + 1)%Z ->
  Z.of_nat (size (Suspicion.confirmations (snd (Confirm p s))))
  = (Suspicion.n (snd (Confirm p s)) + 1)%Z.
Proof.
  intros Hk Hn Hsize.
  destruct (decide ((Suspicion.n s >= Suspicion.k s)%Z
                    \/ p ∈ Suspicion.confirmations s)) as [Hrej|Hacc].
  - rewrite (Confirm_reject Timer adjust p s Hrej). exact Hsize.
  - rewrite (Confirm_accept Timer adjust p s) by (tauto || lia).
    simpl. rewrite size_union by set_solver.
    rewrite size_singleton. lia.
Qed.

(** X16: the confirmation count is the number of peers in the set of
    confirmations other than the originating peer: after [newSuspicion]
    and any sequence of [Confirm] calls, the set has [n + 1] elements. *)
Theorem confirmations_size
    (from : string) (k0 min0 max0 : Z) (peers : list string) :
  let s := Confirm_all (newSuspicion from k0 min0 max0) peers in
  Z.of_nat (size (Suspicion.confirmations s)) = (Suspicion.n s + 1)%Z.
Proof.
  simpl.
  assert (Hgen : forall s : state,
    Suspicion.suspicion_inv from s ->
    Z.of_nat (size (Suspicion.confirmations s)) = (Suspicion.n s + 1)%Z ->
    Z.of_nat (size (Suspicion.confirmations (Confirm_all s peers)))
    = (Suspicion.n (Confirm_all s peers) + 1)%Z).
  { induction peers as [|p peers IH]; intros s Hinv Hsize; simpl.
    - exact Hsize.
    - apply IH.
      + apply Confirm_preserves_inv. exact Hinv.
      + destruct Hinv as (Hk & Hn & _). apply Confirm_size; lia || assumption. }
  apply Hgen.
  - apply newSuspicion_inv.
  - change (Z.of_nat (size ({[ from ]} : gset string)) = (0 + 1)%Z).
    rewrite size_singleton. reflexivity.
Qed.

(** Distinct new peers are accepted until the target is reached. *)
Lemma Confirm_results_distinct (peers : list string) :
  forall s : state,
    (-2147483648 <= Suspicion.k s < 2147483648)%Z ->
    (0 <= Suspicion.n s)%Z ->
    NoDup peers ->
    (forall p, p ∈ peers -> p ∉ Suspicion.confirmations s) ->
    let room := Z.to_nat (Suspicion.k s - Suspicion.n s) in
    Confirm_results s peers
    = replicate (length peers `min` room) true
        ++ replicate (length peers - room) false /\
    Suspicion.n (Confirm_all s peers)
    = (Suspicion.n s + Z.of_nat (length peers `min` room))%Z.
Proof.
  induction peers as [|p peers IH]; intros s Hk Hn Hnd Hnew; simpl.
  - split; [reflexivity|lia].
  - apply NoDup_cons in Hnd as [Hp Hnd].
    destruct (decide (Suspicion.n s >= Suspicion.k s)%Z) as [Hfull|Hroom].
    + rewrite (Confirm_reject Timer adjust p s) by (left; exact Hfull).
      simpl.
      destruct (IH s Hk Hn Hnd) as [Hres Hcount].
      { intros q Hq. apply Hnew. now right. }
      replace (Z.to_nat (Suspicion.k s - Suspicion.n s)) with 0 in * by lia.
      rewrite Nat.min_0_r in *. rewrite Nat.sub_0_r in Hres.
      simpl in *. split.
      * rewrite Hres. reflexivity.
      * rewrite Hcount. lia.
    + assert (Hpn : p ∉ Suspicion.confirmations s) by (apply Hnew; now left).
      rewrite (Confirm_accept Timer adjust p s) by (assumption || lia).
      simpl.
      match goal with
      | |- context [Confirm_results ?s1 peers] => set (s' := s1)
      end.
      destruct (IH s') as [Hres Hcount]; subst s'; simpl; try lia.
      { exact Hnd. }
      { intros q Hq Hin. apply elem_of_union in Hin as [Hin|Hin].
        - apply elem_of_singleton in Hin. subst. contradiction.
        - apply (Hnew q); [now right|exact Hin]. }
      simpl in Hres, Hcount.
      destruct (Z.to_nat (Suspicion.k s - Suspicion.n s)) as [|room'] eqn:Hroom';
        [lia|].
      replace (Z.to_nat (Suspicion.k s - (Suspicion.n s + 1))) with room'
        in * by lia.
      split.
      * rewrite Hres. reflexivity.
      * rewrite Hcount. simpl. lia.
Qed.

(** X17: confirmations from pairwise-distinct peers other than the
    originating peer, made one after the other on a new timer, return true
    for the first [max(k, 0)] of them and false for the others, and leave
    the count at [min(len(peers), max(k, 0))], with [k] the timer's
    target as an [int32]. *)
Theorem Confirm_distinct_peers
    (from : string) (k0 min0 max0 : Z) (peers : list string) :
  NoDup peers ->
  from ∉ peers ->
  let s := newSuspicion from k0 min0 max0 in
  let room := Z.to_nat (int32 k0) in
  Confirm_results s peers
  = replicate (length peers `min` room) true
      ++ replicate (length peers - room) false /\
  Suspicion.n (Confirm_all s peers) = Z.of_nat (length peers `min` room).
Proof.
  intros Hnd Hfrom s room.
  destruct (Confirm_results_distinct peers s) as [Hres Hcount].
  - apply int32_range.
  - simpl; lia.
  - exact Hnd.
  - intros p Hp Hin. simpl in Hin. apply elem_of_singleton in Hin.
    subst. contradiction.
  - simpl in Hres, Hcount. rewrite Z.sub_0_r in Hres, Hcount.
    split; [exact Hres|]. rewrite Hcount. lia.
Qed.

End SuspicionMore.

Lemma Confirm_distinct_peers_witness :
  SuspicionRuns.Confirm_results (fun _ _ _ _ (t : unit) => t)
    (Suspicion.newSuspicion (fun _ => tt) "a" 2 1 10) ["b"; "c"; "d"]
  = replicate (length ["b"; "c"; "d"] `min` Z.to_nat (int32 2)) true
      ++ replicate (length ["b"; "c"; "d"] - Z.to_nat (int32 2)) false /\
  Suspicion.n
    (Suspicion.Confirm_all (fun _ _ _ _ (t : unit) => t)
       (Suspicion.newSuspicion (fun _ => tt) "a" 2 1 10) ["b"; "c"; "d"])
  = Z.of_nat (length ["b"; "c"; "d"] `min` Z.to_nat (int32 2)).
Proof.
  apply (Confirm_distinct_peers unit (fun _ => tt) (fun _ _ _ _ t => t)
           "a" 2 1 10 ["b"; "c"; "d"]).
  - repeat constructor; set_solver.
  - set_solver.
Defined.

(** ** More on payload compression *)
Section EnvelopeMore.

Import Envelope.

Context `{Codec compress} `{Lzw}.
Variable lzwAlgo : byte.

(** X18: [decompressPayload] succeeds exactly when the message decodes to
    an envelope, the envelope names the LZW algorithm, and the
    decompressor reads its buffer to the end; an envelope with any other
    algorithm identifier is refused with the unknown-algorithm error and
    its buffer is not decompressed. *)
Theorem decompressPayload_cases (msg : list byte) :
  match decompressPayload lzwAlgo msg with
  | Ok p =>
      exists c, decode msg = Ok c /\ Algo c = lzwAlgo /\ lzw_Read (Buf c) = Ok p
  | Err e =>
      decode msg = Err e \/
      (exists c, decode msg = Ok c /\ Algo c <> lzwAlgo /\
                 e = UnknownAlgorithm (Algo c)) \/
      (exists c, decode msg = Ok c /\ Algo c = lzwAlgo /\
                 lzw_Read (Buf c) = Err e)
  end.
Proof.
  unfold decompressPayload, decompressBuffer.
  destruct (decode msg) as [c|e]; [|left; reflexivity].
  destruct (decide (Algo c <> lzwAlgo)) as [Hne|Heq].
  - right. left. exists c. repeat split. exact Hne.
  - assert (Ha : Algo c = lzwAlgo)
      by (destruct (decide (Algo c = lzwAlgo)); tauto).
    destruct (lzw_Read (Buf c)) as [p|e] eqn:Hr.
    + exists c. repeat split; assumption.
    + right. right. exists c. repeat split; assumption.
Qed.

End EnvelopeMore.

(** ** Addresses *)
Section HostPortFacts.

Import HostPort.

Lemma LastIndex_from_notin (s : gostring) (c : ascii) :
  forall i found, c ∉ s -> LastIndex_from s c i found = found.
Proof.
  induction s as [|x s IH]; intros i found Hc; simpl; [reflexivity|].
  apply not_elem_of_cons in Hc as [Hx Hs].
  destruct (decide (x = c)) as [->|_]; [contradiction|]. now apply IH.
Qed.

Lemma LastIndex_from_app (a tl : gostring) (c : ascii) :
  forall i found,
    c ∉ tl ->
    LastIndex_from (a ++ c :: tl) c i found = (i + Z.of_nat (length a))%Z.
Proof.
  induction a as [|x a IH]; intros i found Hc; simpl.
  - destruct (decide (c = c)) as [_|Hn]; [|contradiction].
    rewrite LastIndex_from_notin by assumption. lia.
  - rewrite IH by assumption. lia.
Qed.

Lemma LastIndex_notin (s : gostring) (c : ascii) :
  c ∉ s -> LastIndex s c = (-1)%Z.
Proof. apply LastIndex_from_notin. Qed.

Lemma LastIndex_last (a tl : gostring) (c : ascii) :
  c ∉ tl -> LastIndex (a ++ c :: tl) c = Z.of_nat (length a).
Proof. intros Hc. unfold LastIndex. now rewrite LastIndex_from_app. Qed.

Lemma LastIndex_head (tl : gostring) (c : ascii) :
  c ∉ tl -> LastIndex (c :: tl) c = 0%Z.
Proof. intros Hc. exact (LastIndex_last [] tl c Hc). Qed.

Lemma LastIndex_bounds (s : gostring) (c : ascii) :
  (-1 <= LastIndex s c < Z.of_nat (length s))%Z.
Proof.
  unfold LastIndex.
  assert (Hgen : forall i found,
    (found < i)%Z ->
    (found <= LastIndex_from s c i found < i + Z.of_nat (length s))%Z
    \/ LastIndex_from s c i found = found).
  { induction s as [|x s IH]; intros i found Hf; simpl.
    - right. lia.
    - destruct (decide (x = c)).
      + destruct (IH (i + 1)%Z i ltac:(lia)) as [H|H]; left; lia.
      + destruct (IH (i + 1)%Z found ltac:(lia)) as [H|H]; [left|right]; lia. }
  destruct (Hgen 0%Z (-1)%Z ltac:(lia)) as [H|H]; lia.
Qed.

Lemma Count_app (a c : gostring) (sep : ascii) :
  Count (a ++ c) sep = (Count a sep + Count c sep)%Z.
Proof. unfold Count. rewrite filter_app, length_app. lia. Qed.

Lemma Count_notin (s : gostring) (sep : ascii) :
  sep ∉ s -> Count s sep = 0%Z.
Proof.
  intros Hs. unfold Count.
  induction s as [|x s IH]; [reflexivity|].
  apply not_elem_of_cons in Hs as [Hx Hs].
  rewrite filter_cons_False by congruence. now apply IH.
Qed.

Lemma Count_pos (s : gostring) (sep : ascii) :
  sep ∈ s -> (1 <= Count s sep)%Z.
Proof.
  intros Hs. apply list_elem_of_split in Hs as (a & c & ->).
  rewrite Count_app. unfold Count at 2.
  rewrite filter_cons_True by reflexivity. simpl.
  unfold Count. lia.
Qed.

(** The characters [strconv.Itoa] writes. *)
Lemma Itoa_chars (i : Z) (c : ascii) :
  c ∈ Itoa i ->
  c ∈ String.list_ascii_of_string "-0123456789".
Proof.
  unfold Itoa.
  assert (Hu : forall d, c ∈ String.list_ascii_of_string (NilEmpty.string_of_uint d) ->
                         c ∈ String.list_ascii_of_string "-0123456789").
  { induction d as [|d IHd|d IHd|d IHd|d IHd|d IHd|d IHd|d IHd|d IHd|d IHd|d IHd];
      simpl; intros Hc;
      try (apply elem_of_cons in Hc as [->|Hc]; [set_solver|exact (IHd Hc)]).
    inversion Hc. }
  assert (Hz : forall d, c ∈ String.list_ascii_of_string (NilZero.string_of_uint d) ->
                         c ∈ String.list_ascii_of_string "-0123456789").
  { intros d. destruct d; try apply Hu. simpl. set_solver. }
  destruct (Z.to_int i) as [d|d]; simpl.
  - apply (Hz d).
  - intros Hc. apply elem_of_cons in Hc as [->|Hc]; [set_solver|exact (Hz d Hc)].
Qed.

Lemma Itoa_no_colon (i : Z) : colon ∉ Itoa i.
Proof.
  intros Hc. apply Itoa_chars in Hc. simpl in Hc.
  repeat (apply elem_of_cons in Hc as [Hc|Hc]; [discriminate|]).
  inversion Hc.
Qed.

Lemma Itoa_no_bracket (i : Z) : no_bracket (Itoa i).
Proof.
  split; intros Hc; apply Itoa_chars in Hc; simpl in Hc;
    repeat (apply elem_of_cons in Hc as [Hc|Hc]; [discriminate|]);
    inversion Hc.
Qed.

Lemma hasPort_without_colon (s : gostring) :
  colon ∉ s -> hasPort s = false.
Proof.
  intros Hc. unfold hasPort.
  rewrite (LastIndex_notin s colon Hc), (Count_notin s colon Hc).
  pose proof (LastIndex_bounds s rbracket).
  destruct (decide _); apply bool_decide_eq_false; lia.
Qed.

Lemma hasPort_plain (host port : gostring) :
  colon ∉ host -> lbracket ∉ host ->
  colon ∉ port -> lbracket ∉ port ->
  hasPort (host ++ colon :: port) = true.
Proof.
  intros Hch Hbh Hcp Hbp. unfold hasPort.
  rewrite (LastIndex_notin _ lbracket) by set_solver.
  destruct (decide _) as [?|_]; [lia|].
  apply bool_decide_eq_true.
  rewrite Count_app, (Count_notin host) by assumption.
  change (colon :: port) with ([colon] ++ port).
  rewrite Count_app, (Count_notin port) by assumption. reflexivity.
Qed.

Lemma hasPort_in_brackets (h port : gostring) :
  lbracket ∉ h ->
  colon ∉ port -> no_bracket port ->
  hasPort (lbracket :: h ++ rbracket :: colon :: port) = true /\
  hasPort (lbracket :: h ++ [rbracket]) = false.
Proof.
  intros Hbh Hcp [Hbp Hbp']. unfold hasPort. split.
  - rewrite LastIndex_head by set_solver.
    destruct (decide _) as [_|Hn]; [|lia].
    apply bool_decide_eq_true.
    pose proof (LastIndex_last (lbracket :: h) (colon :: port) rbracket
                  ltac:(set_solver)) as Hr.
    pose proof (LastIndex_last ((lbracket :: h) ++ [rbracket]) port colon Hcp)
      as Hc.
    rewrite <- app_assoc in Hc.
    change ((lbracket :: h) ++ [rbracket] ++ colon :: port)
      with (lbracket :: h ++ rbracket :: colon :: port) in Hc.
    change ((lbracket :: h) ++ rbracket :: colon :: port)
      with (lbracket :: h ++ rbracket :: colon :: port) in Hr.
    rewrite Hr, Hc, length_app. cbn [length]. lia.
  - rewrite LastIndex_head by set_solver.
    destruct (decide _) as [_|Hn]; [|lia].
    apply bool_decide_eq_false.
    pose proof (LastIndex_last (lbracket :: h) [] rbracket ltac:(set_solver))
      as Hr.
    change ((lbracket :: h) ++ [rbracket]) with (lbracket :: h ++ [rbracket])
      in Hr.
    rewrite Hr.
    pose proof (LastIndex_bounds (lbracket :: h ++ [rbracket]) colon) as Hb.
    assert (Hne : LastIndex (lbracket :: h ++ [rbracket]) colon
                  <> Z.of_nat (length (lbracket :: h))).
    { destruct (decide (colon ∈ lbracket :: h)) as [Hin|Hnin].
      - apply list_elem_of_split_r in Hin as (a & c & Hsplit & Hc).
        change (lbracket :: h ++ [rbracket])
          with ((lbracket :: h) ++ [rbracket]).
        rewrite Hsplit, <- app_assoc. cbn [app].
        rewrite LastIndex_last by set_solver.
        rewrite length_app. cbn [length]. lia.
      - rewrite LastIndex_notin by set_solver. lia. }
    cbn [length] in Hb, Hne |- *. rewrite length_app in Hb.
    cbn [length] in Hb. lia.
Qed.

End HostPortFacts.

Section EnsurePortFacts.

Import HostPort.

Lemma TrimLeft_head_kept (s : gostring) (cutset : list ascii) :
  match s with
  | [] => True
  | x :: _ => x ∉ cutset
  end ->
  TrimLeft s cutset = s.
Proof.
  destruct s as [|x s]; simpl; [reflexivity|].
  intros Hx. destruct (decide _) as [Hin|_]; [contradiction|reflexivity].
Qed.

Lemma head_not_bracket (s : gostring) :
  no_bracket s ->
  match s with
  | [] => True
  | x :: _ => x ∉ [lbracket; rbracket]
  end.
Proof.
  intros [H1 H2]. destruct s as [|x s]; [exact I|].
  intros Hx. apply elem_of_cons in Hx as [->|Hx]; [set_solver|].
  apply elem_of_cons in Hx as [->|Hx]; [set_solver|]. inversion Hx.
Qed.

Lemma no_bracket_reverse (s : gostring) : no_bracket s -> no_bracket (reverse s).
Proof. intros [H1 H2]. split; rewrite elem_of_reverse; assumption. Qed.

(** Trimming the brackets off a string that has none changes nothing. *)
Lemma Trim_no_bracket (s : gostring) :
  no_bracket s -> Trim s [lbracket; rbracket] = s.
Proof.
  intros Hs. unfold Trim, TrimRight.
  rewrite (TrimLeft_head_kept (reverse s))
    by (apply head_not_bracket, no_bracket_reverse, Hs).
  rewrite reverse_involutive.
  apply TrimLeft_head_kept, head_not_bracket, Hs.
Qed.

Lemma TrimLeft_cons_in (x : ascii) (s : gostring) (cutset : list ascii) :
  x ∈ cutset -> TrimLeft (x :: s) cutset = TrimLeft s cutset.
Proof.
  intros Hx. simpl. destruct (decide _) as [_|Hn]; [reflexivity|contradiction].
Qed.

Lemma TrimRight_snoc_in (x : ascii) (s : gostring) (cutset : list ascii) :
  x ∈ cutset -> TrimRight (s ++ [x]) cutset = TrimRight s cutset.
Proof.
  intros Hx. unfold TrimRight. rewrite reverse_app.
  change (reverse [x] ++ reverse s) with (x :: reverse s).
  now rewrite TrimLeft_cons_in.
Qed.

Lemma TrimRight_snoc_kept (x : ascii) (s : gostring) (cutset : list ascii) :
  x ∉ cutset -> TrimRight (s ++ [x]) cutset = s ++ [x].
Proof.
  intros Hx. unfold TrimRight. rewrite reverse_app.
  change (reverse [x] ++ reverse s) with (x :: reverse s).
  rewrite (TrimLeft_head_kept (x :: reverse s)) by exact Hx.
  rewrite reverse_cons, reverse_involutive. reflexivity.
Qed.

Lemma not_bracket_char (x : ascii) :
  x <> lbracket -> x <> rbracket -> x ∉ [lbracket; rbracket].
Proof.
  intros H1 H2 Hin.
  apply elem_of_cons in Hin as [->|Hin]; [contradiction|].
  apply elem_of_cons in Hin as [->|Hin]; [contradiction|]. inversion Hin.
Qed.

(** Trimming takes one pair of brackets off a bracketed host. *)
Lemma Trim_bracketed (h : gostring) :
  no_bracket h -> Trim (lbracket :: h ++ [rbracket]) [lbracket; rbracket] = h.
Proof.
  intros Hh. unfold Trim.
  change (lbracket :: h ++ [rbracket]) with ((lbracket :: h) ++ [rbracket]).
  rewrite TrimRight_snoc_in by set_solver.
  destruct (decide (h = [])) as [->|Hne].
  - change [lbracket] with ([] ++ [lbracket]).
    rewrite TrimRight_snoc_in by set_solver. reflexivity.
  - destruct (exists_last Hne) as (h' & x & ->).
    assert (Hx : x ∉ [lbracket; rbracket]).
    { destruct Hh as [H1 H2].
      apply not_bracket_char; intros ->; [apply H1|apply H2];
        apply elem_of_app; right; left. }
    change (lbracket :: h' ++ [x]) with ((lbracket :: h') ++ [x]).
    rewrite TrimRight_snoc_kept by exact Hx.
    change ((lbracket :: h') ++ [x]) with (lbracket :: h' ++ [x]).
    rewrite TrimLeft_cons_in by set_solver.
    apply TrimLeft_head_kept.
    apply (head_not_bracket (h' ++ [x])). exact Hh.
Qed.

Lemma hasPort_JoinHostPort (host : gostring) (port : Z) :
  lbracket ∉ host -> hasPort (JoinHostPort host (Itoa port)) = true.
Proof.
  intros Hb. unfold JoinHostPort.
  pose proof (Itoa_no_colon port) as Hc.
  pose proof (Itoa_no_bracket port) as Hnb.
  destruct (decide (colon ∈ host)) as [Hin|Hnin].
  - apply hasPort_in_brackets; assumption.
  - apply hasPort_plain; try assumption. apply Hnb.
Qed.

(** X19: a string without a colon has no port. *)
Theorem hasPort_no_colon (s : gostring) :
  colon ∉ s -> hasPort s = false.
Proof. apply hasPort_without_colon. Qed.

(** X20: [host:port] has a port when the host has no colon and no
    opening bracket and the port has neither. *)
Theorem hasPort_host_port (host port : gostring) :
  colon ∉ host -> lbracket ∉ host ->
  colon ∉ port -> lbracket ∉ port ->
  hasPort (host ++ colon :: port) = true.
Proof. apply hasPort_plain. Qed.

(** X21: a bracketed host [[h]:port] has a port when no other opening
    bracket occurs and the port has no colon and no bracket; the
    bracketed host alone, [[h]], has none. *)
Theorem hasPort_bracketed (h port : gostring) :
  lbracket ∉ h ->
  colon ∉ port -> no_bracket port ->
  hasPort (lbracket :: h ++ rbracket :: colon :: port) = true /\
  hasPort (lbracket :: h ++ [rbracket]) = false.
Proof. apply hasPort_in_brackets. Qed.

(** X22: [joinHostPort(host, port)] has a port for every host without an
    opening bracket and every port number. *)
Theorem joinHostPort_hasPort (host : gostring) (port : N) :
  lbracket ∉ host -> hasPort (joinHostPort host port) = true.
Proof. intros Hb. apply hasPort_JoinHostPort. exact Hb. Qed.

(** X23: [ensurePort] gives a host name or IPv4 address (no colon, no
    bracket) the default port: the result is [host:port]. *)
Theorem ensurePort_plain_host (h : gostring) (port : Z) :
  no_bracket h ->
  colon ∉ h ->
  ensurePort h port = h ++ colon :: Itoa port.
Proof.
  intros Hh Hc. unfold ensurePort.
  rewrite hasPort_without_colon by assumption.
  rewrite Trim_no_bracket by assumption.
  unfold JoinHostPort. destruct (decide _) as [Hin|_]; [contradiction|].
  reflexivity.
Qed.

(** X24: [ensurePort] gives an IPv6 address (two or more colons, no
    bracket inside) brackets and the default port, whether it comes bare
    or in brackets already: the brackets are not doubled. *)
Theorem ensurePort_ipv6 (h : gostring) (port : Z) :
  no_bracket h ->
  (2 <= Count h colon)%Z ->
  ensurePort h port = lbracket :: h ++ rbracket :: colon :: Itoa port /\
  ensurePort (lbracket :: h ++ [rbracket]) port
  = lbracket :: h ++ rbracket :: colon :: Itoa port.
Proof.
  intros Hh Hcount.
  assert (Hin : colon ∈ h).
  { destruct (decide (colon ∈ h)) as [|Hn]; [assumption|].
    rewrite Count_notin in Hcount by assumption. lia. }
  split.
  - unfold ensurePort.
    assert (Hp : hasPort h = false).
    { unfold hasPort. rewrite (LastIndex_notin h lbracket) by apply Hh.
      destruct (decide _) as [?|_]; [lia|].
      apply bool_decide_eq_false. lia. }
    rewrite Hp, Trim_no_bracket by assumption.
    unfold JoinHostPort. destruct (decide _) as [_|Hn]; [|contradiction].
    reflexivity.
  - unfold ensurePort.
    destruct (hasPort_in_brackets h (Itoa port)) as [_ Hp].
    { apply Hh. }
    { apply Itoa_no_colon. }
    { apply Itoa_no_bracket. }
    rewrite Hp, Trim_bracketed by assumption.
    unfold JoinHostPort. destruct (decide _) as [_|Hn]; [|contradiction].
    reflexivity.
Qed.

(** X25: when the string, once its outer brackets are trimmed, has no
    opening bracket left, the result of [ensurePort] has a port, and
    [ensurePort] leaves that result unchanged whatever the default port. *)
Theorem ensurePort_hasPort (s : gostring) (port port' : Z) :
  lbracket ∉ Trim s [lbracket; rbracket] ->
  hasPort (ensurePort s port) = true /\
  ensurePort (ensurePort s port) port' = ensurePort s port.
Proof.
  intros Hb.
  assert (Hp : hasPort (ensurePort s port) = true).
  { unfold ensurePort. destruct (hasPort s) eqn:Hs; [exact Hs|].
    apply hasPort_JoinHostPort. exact Hb. }
  split; [exact Hp|].
  unfold ensurePort at 1. rewrite Hp. reflexivity.
Qed.

End EnsurePortFacts.

Lemma hasPort_no_colon_witness :
  HostPort.hasPort (String.list_ascii_of_string "localhost") = false.
Proof.
  apply (hasPort_no_colon (String.list_ascii_of_string "localhost")).
  vm_compute. set_solver.
Defined.

Lemma hasPort_host_port_witness :
  HostPort.hasPort
    (String.list_ascii_of_string "10.0.0.1" ++ HostPort.colon
       :: String.list_ascii_of_string "7946") = true.
Proof.
  apply (hasPort_host_port (String.list_ascii_of_string "10.0.0.1")
           (String.list_ascii_of_string "7946"));
    vm_compute; set_solver.
Defined.

Lemma hasPort_bracketed_witness :
  HostPort.hasPort
    (HostPort.lbracket :: String.list_ascii_of_string "::1" ++ HostPort.rbracket
       :: HostPort.colon :: String.list_ascii_of_string "80") = true /\
  HostPort.hasPort
    (HostPort.lbracket :: String.list_ascii_of_string "::1" ++ [HostPort.rbracket])
  = false.
Proof.
  apply (hasPort_bracketed (String.list_ascii_of_string "::1")
           (String.list_ascii_of_string "80")).
  - vm_compute. set_solver.
  - vm_compute. set_solver.
  - split; vm_compute; set_solver.
Defined.

Lemma joinHostPort_hasPort_witness :
  HostPort.hasPort
    (HostPort.joinHostPort (String.list_ascii_of_string "fe80::1") 7946) = true.
Proof.
  apply (joinHostPort_hasPort (String.list_ascii_of_string "fe80::1") 7946).
  vm_compute. set_solver.
Defined.

Lemma ensurePort_plain_host_witness :
  HostPort.ensurePort (String.list_ascii_of_string "node1") 7946
  = String.list_ascii_of_string "node1" ++ HostPort.colon :: HostPort.Itoa 7946.
Proof.
  apply (ensurePort_plain_host (String.list_ascii_of_string "node1") 7946).
  - split; vm_compute; set_solver.
  - vm_compute. set_solver.
Defined.

Lemma ensurePort_ipv6_witness :
  HostPort.ensurePort (String.list_ascii_of_string "::1") 80
  = HostPort.lbracket :: String.list_ascii_of_string "::1" ++ HostPort.rbracket
      :: HostPort.colon :: HostPort.Itoa 80 /\
  HostPort.ensurePort
    (HostPort.lbracket :: String.list_ascii_of_string "::1" ++ [HostPort.rbracket]) 80
  = HostPort.lbracket :: String.list_ascii_of_string "::1" ++ HostPort.rbracket
      :: HostPort.colon :: HostPort.Itoa 80.
Proof.
  apply (ensurePort_ipv6 (String.list_ascii_of_string "::1") 80).
  - split; vm_compute; set_solver.
  - vm_compute. discriminate.
Defined.

Lemma ensurePort_hasPort_witness :
  HostPort.hasPort
    (HostPort.ensurePort (String.list_ascii_of_string "[::1]") 80) = true /\
  HostPort.ensurePort
    (HostPort.ensurePort (String.list_ascii_of_string "[::1]") 80) 81
  = HostPort.ensurePort (String.list_ascii_of_string "[::1]") 80.
Proof.
  apply (ensurePort_hasPort (String.list_ascii_of_string "[::1]") 80 81).
  vm_compute. set_solver.
Defined.
